(** * CronManager: registry, execution history and statistics

    A shallow embedding of [cron-manager.ts] and [types.ts], followed by the
    security module and the job-control routes of [index.ts].

    The manager keeps three JavaScript [Map]s keyed by job name: the
    scheduling-library runtimes ([jobs]), the stored job definitions
    ([configs]) and the per-job execution histories ([executions]).  They
    are modelled as finite maps; a method that mutates the object becomes a
    function returning the new manager, paired with the method's result. *)

From stdpp Require Import base option list strings gmap pretty.
From Stdlib Require Import ZArith Ascii.

Local Open Scope Z_scope.

(** ** types.ts *)

Inductive JobStatus := running | paused | stopped | idle.

#[global] Instance JobStatus_eq_dec : EqDecision JobStatus.
Proof. solve_decision. Defined.

(** [Date] values are milliseconds since the epoch. *)
Module JobExecution.
Record t := mk {
  jobName : string;
  startTime : Z;
  endTime : option Z;
  duration : option Z;
  success : bool;
  error : option string;
  output : option string;
}.
End JobExecution.

(** ** The scheduling library

    [Cron] objects come from the croner package, which is not part of the
    sources.  The manager only calls the methods below, so the library is an
    interface: [Cron] is the state of one runtime object, a mutating method
    returns the new state (and its boolean result, where the manager reads
    it), an observer reads the state. *)
Class Croner := {
  Cron : Type;
  CronOptions : Type;
  Handler : Type;
  isStopped : Cron → bool;
  isRunning : Cron → bool;
  isBusy : Cron → bool;
  nextRun : Cron → option Z;
  previousRun : Cron → option Z;
  currentRun : Cron → option Z;
  Cron_trigger : Cron → Cron;
  Cron_pause : Cron → Cron * bool;
  Cron_resume : Cron → Cron * bool;
  Cron_stop : Cron → Cron;
}.

Module JobConfig.
Record t `{Croner} := mk {
  name : string;
  description : string;
  pattern : string;
  timezone : option string;
  enabled : option bool;
  options : option CronOptions;
  handler : Handler;
}.
End JobConfig.

Module JobInfo.
Record stats_t := mkStats {
  totalRuns : nat;
  successfulRuns : nat;
  failedRuns : nat;
  averageDuration : Z;
}.
Record t := mk {
  name : string;
  description : string;
  pattern : string;
  timezone : option string;
  enabled : bool;
  status : JobStatus;
  nextRun : option Z;
  previousRun : option Z;
  currentRun : option Z;
  isBusy : bool;
  executions : list JobExecution.t;
  stats : stats_t;
}.
End JobInfo.

Record ManagerStats := {
  totalJobs : nat;
  runningJobs : nat;
  pausedJobs : nat;
  stoppedJobs : nat;
  totalExecutions : nat;
  successfulExecutions : nat;
  failedExecutions : nat;
}.

(** How a call ends: it returns, or it throws an [Error] with a message. *)
Inductive Completion := Normal | Throw (message : string).

(** What awaiting the job's handler gives: it resolves, or it rejects; the
    string is [error instanceof Error ? error.message : String(error)]. *)
Inductive HandlerOutcome := Resolved | Rejected (errorMessage : string).

(** ** cron-manager.ts *)

Section CronManager.
Context `{Croner}.

(** [maxExecutionLogs] is a number of records to keep (100 by default). *)
Record CronManager := {
  jobs : gmap string Cron;
  configs : gmap string JobConfig.t;
  executions : gmap string (list JobExecution.t);
  maxExecutionLogs : nat;
}.

Definition constructor (maxExecutionLogs : nat) : CronManager :=
  {| jobs := ∅; configs := ∅; executions := ∅;
     maxExecutionLogs := maxExecutionLogs |}.

Definition set_jobs (f : gmap string Cron → gmap string Cron)
    (m : CronManager) : CronManager :=
  {| jobs := f (jobs m); configs := configs m; executions := executions m;
     maxExecutionLogs := maxExecutionLogs m |}.

Definition set_configs (f : gmap string JobConfig.t → gmap string JobConfig.t)
    (m : CronManager) : CronManager :=
  {| jobs := jobs m; configs := f (configs m); executions := executions m;
     maxExecutionLogs := maxExecutionLogs m |}.

Definition set_executions
    (f : gmap string (list JobExecution.t) → gmap string (list JobExecution.t))
    (m : CronManager) : CronManager :=
  {| jobs := jobs m; configs := configs m; executions := f (executions m);
     maxExecutionLogs := maxExecutionLogs m |}.

(** [config.enabled !== false] *)
Definition is_enabled (config : JobConfig.t) : bool :=
  match JobConfig.enabled config with
  | Some false => false
  | _ => true
  end.

Definition dquote : string := String (Ascii.ascii_of_nat 34) EmptyString.

Definition already_exists (name : string) : string :=
  "Job with name " +:+ dquote +:+ name +:+ dquote +:+ " already exists".

(** [createJob]: [new Cron(config.pattern, options, wrapper)] is a call into
    the library.  Its outcome [made] is an input here: the new runtime, or
    the message of the error the constructor throws (a malformed pattern, a
    name the library already knows).  The wrapper passed to the constructor
    is [wrapper_begin] and [wrapper_end] below, the [catch] option is
    [catch_callback]. *)
Definition createJob (m : CronManager) (config : JobConfig.t)
    (made : Cron + string) : CronManager * Completion :=
  match made with
  | inl job => (set_jobs <[JobConfig.name config := job]> m, Normal)
  | inr message => (m, Throw message)
  end.

Definition register (m : CronManager) (config : JobConfig.t)
    (made : Cron + string) : CronManager * Completion :=
  match jobs m !! JobConfig.name config with
  | Some _ => (m, Throw (already_exists (JobConfig.name config)))
  | None =>
      let m := set_configs <[JobConfig.name config := config]> m in
      let m := set_executions <[JobConfig.name config := []]> m in
      if is_enabled config then createJob m config made else (m, Normal)
  end.

(** The object literal built by [recordExecution]; [now] is the value of
    [new Date()], read when no [startTime] is passed. *)
Definition execution_of (jobName : string) (success : bool)
    (error : option string) (startTime endTime duration : option Z)
    (now : Z) : JobExecution.t :=
  {| JobExecution.jobName := jobName;
     JobExecution.startTime := default now startTime;
     JobExecution.endTime := endTime;
     JobExecution.duration := duration;
     JobExecution.success := success;
     JobExecution.error := error;
     JobExecution.output := None |}.

(** [this.executions.get(name) || []] *)
Definition history (m : CronManager) (name : string) : list JobExecution.t :=
  default [] (executions m !! name).

(** [unshift], then the array is cut to [maxExecutionLogs] when longer. *)
Definition recordExecution (m : CronManager) (jobName : string)
    (success : bool) (error : option string)
    (startTime endTime duration : option Z) (now : Z) : CronManager :=
  let executions := history m jobName in
  let execution :=
    execution_of jobName success error startTime endTime duration now in
  let executions := execution :: executions in
  let executions :=
    if (maxExecutionLogs m <? length executions)%nat
    then take (maxExecutionLogs m) executions
    else executions in
  set_executions <[jobName := executions]> m.

(** The function given to [new Cron] is asynchronous.  Up to its [await] it
    reads the clock into [startTime] and logs; the manager is not touched.
    What the suspended call keeps is [PendingRun]. *)
Record PendingRun := {
  run_config : JobConfig.t;
  run_startTime : Z;
}.

Definition wrapper_begin (m : CronManager) (config : JobConfig.t) (now : Z)
    : CronManager * PendingRun :=
  (m, {| run_config := config; run_startTime := now |}).

(** After the [await]: the [try] branch when the handler resolved, the
    [catch] branch when it rejected; [now] is the [endTime] read there. *)
Definition wrapper_end (m : CronManager) (run : PendingRun)
    (outcome : HandlerOutcome) (now : Z) : CronManager :=
  let startTime := run_startTime run in
  let endTime := now in
  let duration := endTime - startTime in
  match outcome with
  | Resolved =>
      recordExecution m (JobConfig.name (run_config run)) true None
        (Some startTime) (Some endTime) (Some duration) now
  | Rejected errorMessage =>
      recordExecution m (JobConfig.name (run_config run)) false
        (Some errorMessage) (Some startTime) (Some endTime) (Some duration) now
  end.

(** The [catch] option handed to the library: called with the error when the
    function given to [new Cron] itself fails. *)
Definition catch_callback (m : CronManager) (config : JobConfig.t)
    (errorMessage : string) (now : Z) : CronManager :=
  recordExecution m (JobConfig.name config) false (Some errorMessage)
    None None None now.

Definition getJobStatus (job : option Cron) : JobStatus :=
  match job with
  | None => stopped
  | Some job =>
      if isStopped job then stopped
      else if negb (isRunning job) then paused
      else if isBusy job then running
      else idle
  end.

(** [e.duration || 0], summed. *)
Definition totalDuration (executions : list JobExecution.t) : Z :=
  foldl (λ sum e, sum + default 0 (JobExecution.duration e)) 0 executions.

(** [Math.round(total / n)] for integers [total] and [n > 0]: the nearest
    integer, a tie going up. *)
Definition round_div (total : Z) (n : nat) : Z :=
  (2 * total + Z.of_nat n) `div` (2 * Z.of_nat n).

Definition averageDuration (executions : list JobExecution.t) : Z :=
  if (0 <? length executions)%nat
  then round_div (totalDuration executions) (length executions)
  else 0.

Definition getJob (m : CronManager) (name : string) : option JobInfo.t :=
  match configs m !! name with
  | None => None
  | Some config =>
      let job := jobs m !! name in
      let executions := history m name in
      let successfulRuns :=
        length (List.filter (λ e, JobExecution.success e) executions) in
      let failedRuns :=
        length (List.filter (λ e, negb (JobExecution.success e)) executions) in
      Some {|
        JobInfo.name := JobConfig.name config;
        JobInfo.description := JobConfig.description config;
        JobInfo.pattern := JobConfig.pattern config;
        JobInfo.timezone := JobConfig.timezone config;
        JobInfo.enabled := is_enabled config;
        JobInfo.status := getJobStatus job;
        JobInfo.nextRun := job ≫= nextRun;
        JobInfo.previousRun := job ≫= previousRun;
        JobInfo.currentRun := job ≫= currentRun;
        JobInfo.isBusy := from_option isBusy false job;
        JobInfo.executions := take 10 executions;
        JobInfo.stats := {|
          JobInfo.totalRuns := length executions;
          JobInfo.successfulRuns := successfulRuns;
          JobInfo.failedRuns := failedRuns;
          JobInfo.averageDuration := averageDuration executions |} |}
  end.

(** The keys of [configs], each looked up with [getJob].  A JavaScript [Map]
    is enumerated in insertion order; the finite map's own order stands for
    it, no property below depends on the order. *)
Definition getAllJobs (m : CronManager) : list JobInfo.t :=
  omap (getJob m) (map_to_list (configs m)).*1.

(** What [job.trigger()] has done when it returns.  The library calls the
    function given to [new Cron], which runs up to its [await]: it reads the
    clock into [startTime] and calls the handler.  A handler that returns, a
    value or a promise, leaves the wrapper suspended at the [await], and the
    run ends later ([wrapper_end]).  A handler that throws at once sends the
    wrapper into its [catch] branch, which reads [endTime] and records the
    failure before [job.trigger()] returns. *)
Inductive Triggered :=
  | Suspended
  | ThrewAtOnce (errorMessage : string) (startTime endTime : Z).

(** The runtime kept under [name] was made by [createJob] from the
    configuration of that name, so the [config.name] of its wrapper is
    [name]. *)
Definition trigger (m : CronManager) (name : string) (called : Triggered)
    : CronManager * bool :=
  match jobs m !! name with
  | None => (m, false)
  | Some job =>
      let m := set_jobs <[name := Cron_trigger job]> m in
      let m :=
        match called with
        | Suspended => m
        | ThrewAtOnce errorMessage startTime endTime =>
            let duration := endTime - startTime in
            recordExecution m name false (Some errorMessage)
              (Some startTime) (Some endTime) (Some duration) endTime
        end in
      (m, true)
  end.

Definition pause (m : CronManager) (name : string) : CronManager * bool :=
  match jobs m !! name with
  | None => (m, false)
  | Some job => (set_jobs <[name := (Cron_pause job).1]> m, true)
  end.

Definition resume (m : CronManager) (name : string) : CronManager * bool :=
  match jobs m !! name with
  | None => (m, false)
  | Some job =>
      let result := Cron_resume job in
      (set_jobs <[name := result.1]> m, result.2)
  end.

(** [job.stop()] acts on the runtime object, which [this.jobs.delete(name)]
    then drops from the manager. *)
Definition stop (m : CronManager) (name : string) : CronManager * bool :=
  match jobs m !! name with
  | None => (m, false)
  | Some job => (set_jobs (delete name) (set_jobs <[name := Cron_stop job]> m), true)
  end.

Definition count_status (p : JobStatus → bool) (l : list JobInfo.t) : nat :=
  length (List.filter (λ j, p (JobInfo.status j)) l).

Definition getStats (m : CronManager) : ManagerStats :=
  let jobs := getAllJobs m in
  let allExecutions := concat (map_to_list (executions m)).*2 in
  {| totalJobs := length jobs;
     runningJobs :=
       count_status (λ s, bool_decide (s = running) || bool_decide (s = idle)) jobs;
     pausedJobs := count_status (λ s, bool_decide (s = paused)) jobs;
     stoppedJobs := count_status (λ s, bool_decide (s = stopped)) jobs;
     totalExecutions := length allExecutions;
     successfulExecutions :=
       length (List.filter (λ e, JobExecution.success e) allExecutions);
     failedExecutions :=
       length (List.filter (λ e, negb (JobExecution.success e)) allExecutions) |}.

(** Every runtime is stopped, then [this.jobs.clear()]. *)
Definition stopAll (m : CronManager) : CronManager :=
  set_jobs (λ _, ∅) (set_jobs (fmap Cron_stop) m).

(** [registerAll]: the [for] loop ends at the first [register] that throws,
    the error leaving the method.  Each configuration comes with the outcome
    of its [new Cron]. *)
Fixpoint registerAll (m : CronManager)
    (configs : list (JobConfig.t * (Cron + string)))
    : CronManager * Completion :=
  match configs with
  | [] => (m, Normal)
  | (config, made) :: configs =>
      match register m config made with
      | (m, Normal) => registerAll m configs
      | (m, Throw message) => (m, Throw message)
      end
  end.

(** *** Runs of the manager

    A sequence of recorded executions for one job, as the wrapper or the
    [catch] callback makes them one after the other. *)
Record Recorded := {
  rec_success : bool;
  rec_error : option string;
  rec_startTime : option Z;
  rec_endTime : option Z;
  rec_duration : option Z;
  rec_now : Z;
}.

Definition recorded_execution (jobName : string) (r : Recorded)
    : JobExecution.t :=
  execution_of jobName (rec_success r) (rec_error r) (rec_startTime r)
    (rec_endTime r) (rec_duration r) (rec_now r).

Definition record_all (m : CronManager) (jobName : string)
    (calls : list Recorded) : CronManager :=
  foldl (λ m r, recordExecution m jobName (rec_success r) (rec_error r)
                  (rec_startTime r) (rec_endTime r) (rec_duration r)
                  (rec_now r)) m calls.

(** One step of the manager's life: a call of a public method, the end of a
    run of the wrapper or a call of the [catch] callback (both belong to a
    job that was registered, and may come after the job was stopped), or the
    library changing a runtime on its own (a timer firing, a run ending, the
    clock moving on). *)
Inductive step : CronManager → CronManager → Prop :=
  | step_register m config made :
      step m (register m config made).1
  | step_trigger m name called :
      step m (trigger m name called).1
  | step_pause m name :
      step m (pause m name).1
  | step_resume m name :
      step m (resume m name).1
  | step_stop m name :
      step m (stop m name).1
  | step_stopAll m :
      step m (stopAll m)
  | step_wrapper_end m run outcome now :
      is_Some (configs m !! JobConfig.name (run_config run)) →
      step m (wrapper_end m run outcome now)
  | step_catch m config errorMessage now :
      is_Some (configs m !! JobConfig.name config) →
      step m (catch_callback m config errorMessage now)
  | step_library m name job job' :
      jobs m !! name = Some job →
      step m (set_jobs <[name := job']> m).

Definition reachable (maxExecutionLogs : nat) (m : CronManager) : Prop :=
  rtc step (constructor maxExecutionLogs) m.

(** What holds of every retained record. *)
Definition finalized (e : JobExecution.t) : Prop :=
  is_Some (JobExecution.error e) ↔ JobExecution.success e = false.

Record manager_inv (maxExecutionLogs' : nat) (m : CronManager) : Prop := {
  inv_cap : maxExecutionLogs m = maxExecutionLogs';
  inv_jobs : ∀ name, is_Some (jobs m !! name) → is_Some (configs m !! name);
  inv_names : ∀ name config,
    configs m !! name = Some config → JobConfig.name config = name;
  inv_length : ∀ name,
    (length (history m name) ≤ maxExecutionLogs')%nat;
  inv_records : ∀ name e,
    e ∈ history m name → JobExecution.jobName e = name ∧ finalized e;
}.

(** The times of a retained record fit together: it has an end time and a
    duration, the duration being the end time less the start time, or it has
    neither and is a failure; [output] is never set. *)
Definition timed (e : JobExecution.t) : Prop :=
  JobExecution.output e = None ∧
  match JobExecution.endTime e, JobExecution.duration e with
  | Some finish, Some took => took = finish - JobExecution.startTime e
  | None, None => JobExecution.success e = false
  | _, _ => False
  end.

Definition records_timed (m : CronManager) : Prop :=
  ∀ name e, e ∈ history m name → timed e.

(** Histories are kept for registered names only. *)
Definition executions_registered (m : CronManager) : Prop :=
  ∀ name, is_Some (executions m !! name) → is_Some (configs m !! name).

(** What of a snapshot comes from the stored definition and the history. *)
Definition recorded_part (info : JobInfo.t) :=
  (JobInfo.name info, JobInfo.description info, JobInfo.pattern info,
   JobInfo.timezone info, JobInfo.enabled info, JobInfo.executions info,
   JobInfo.stats info).

End CronManager.

(** ** A job runtime to run the manager on

    Modelled from the spec: the Job Runtime of section 4.2, which the
    sources take from the croner package.  It has the four lifecycle states,
    the fire times and the busy flag of section 3; [pause] applies to an
    idle or running job, [resume] to a paused one, a manual trigger to an
    idle one, [stop] to any, and a transition that does not apply changes
    nothing and reports [false]. *)
Module SpecRuntime.

Record JobRuntime := {
  state : JobStatus;
  nextFire : option Z;
  previousFire : option Z;
  currentStart : option Z;
  busy : bool;
}.

Definition set_state (s : JobStatus) (r : JobRuntime) : JobRuntime :=
  {| state := s; nextFire := nextFire r; previousFire := previousFire r;
     currentStart := currentStart r; busy := busy r |}.

Definition rt_pause (r : JobRuntime) : JobRuntime * bool :=
  match state r with
  | idle | running => (set_state paused r, true)
  | _ => (r, false)
  end.

Definition rt_resume (r : JobRuntime) : JobRuntime * bool :=
  match state r with
  | paused => (set_state idle r, true)
  | _ => (r, false)
  end.

Definition rt_stop (r : JobRuntime) : JobRuntime :=
  {| state := stopped; nextFire := None; previousFire := previousFire r;
     currentStart := currentStart r; busy := busy r |}.

Definition rt_trigger (r : JobRuntime) : JobRuntime :=
  match state r with
  | idle =>
      {| state := running; nextFire := nextFire r;
         previousFire := previousFire r; currentStart := currentStart r;
         busy := true |}
  | _ => r
  end.

#[export] Instance croner : Croner := {|
  Cron := JobRuntime;
  CronOptions := unit;
  Handler := unit;
  isStopped r := bool_decide (state r = stopped);
  isRunning r := bool_decide (state r = idle) || bool_decide (state r = running);
  isBusy := busy;
  nextRun := nextFire;
  previousRun := previousFire;
  currentRun := currentStart;
  Cron_trigger := rt_trigger;
  Cron_pause := rt_pause;
  Cron_resume := rt_resume;
  Cron_stop := rt_stop;
|}.

(** A runtime as registration starts it, its first fire a minute away. *)
Definition fresh : JobRuntime :=
  {| state := idle; nextFire := Some 60000; previousFire := None;
     currentStart := None; busy := false |}.

Definition job_config (name description : string) (enabled : option bool)
    : JobConfig.t :=
  {| JobConfig.name := name; JobConfig.description := description;
     JobConfig.pattern := "*/1 * * * *"; JobConfig.timezone := None;
     JobConfig.enabled := enabled; JobConfig.options := None;
     JobConfig.handler := tt |}.

(** The manager of [index.ts] after [register] of one enabled job. *)
Definition job_x : JobConfig.t := job_config "x" "first" None.

Definition manager_x (maxExecutionLogs : nat) : CronManager :=
  (register (constructor maxExecutionLogs) job_x (inl fresh)).1.

Definition disabled_x : JobConfig.t := job_config "x" "first" (Some false).

Definition manager_disabled_x : CronManager :=
  (register (constructor 100) disabled_x (inl fresh)).1.

(** A run that started at [start] and took [took] milliseconds. *)
Definition ok_run (start took : Z) : Recorded :=
  {| rec_success := true; rec_error := None; rec_startTime := Some start;
     rec_endTime := Some (start + took); rec_duration := Some took;
     rec_now := start + took |}.

Definition failed_run (start took : Z) (errorMessage : string) : Recorded :=
  {| rec_success := false; rec_error := Some errorMessage;
     rec_startTime := Some start; rec_endTime := Some (start + took);
     rec_duration := Some took; rec_now := start + took |}.

(** Five runs, a second apart, recorded in this order. *)
Definition five_runs : list Recorded :=
  [ok_run 1000 5; ok_run 2000 7; failed_run 3000 2 "boom"; ok_run 4000 4;
   ok_run 5000 6].

(** Twelve runs of 10, 20, ..., 120 milliseconds, recorded in this order. *)
Definition twelve_runs : list Recorded :=
  (λ i : nat, ok_run (1000 * Z.of_nat i) (10 * Z.of_nat i)) <$> seq 1 12.

(** A second definition under the name of [disabled_x]. *)
Definition second_x : JobConfig.t := job_config "x" "second" (Some false).

Definition disabled_y : JobConfig.t := job_config "y" "other" (Some false).

(** [manager_x] after one run of its job has completed. *)
Definition manager_x_ran : CronManager :=
  wrapper_end (manager_x 100) (wrapper_begin (manager_x 100) job_x 1000).2
    Resolved 1005.

(** A second job beside the one of [manager_x]. *)
Definition job_y : JobConfig.t := job_config "y" "second job" None.

Definition manager_xy : CronManager :=
  (register (manager_x 100) job_y (inl fresh)).1.

End SpecRuntime.

(** * security.ts

    Strings are sequences of characters, a character standing for a code
    unit.  The module constants are read from [process.env] when the module
    loads; the two limits come out of [parseInt] and are integers here.
    [String.prototype.trim] and [atob] are functions of the platform, [atob]
    giving nothing when it throws. *)
Class Platform := {
  process_env : string → option string;
  RATE_LIMIT_MAX : Z;
  RATE_LIMIT_WINDOW_seconds : Z;
  String_trim : string → string;
  atob : string → option string;
}.

(** A string or null as a condition: null and the empty string are falsy. *)
Definition truthy (value : option string) : option string :=
  match value with
  | Some EmptyString => None
  | _ => value
  end.

(** [s.split(sep)] for a separator of one character. *)
Fixpoint split (sep : ascii) (s : string) : list string :=
  match s with
  | EmptyString => [EmptyString]
  | String c s =>
      if Ascii.eqb c sep then EmptyString :: split sep s
      else match split sep s with
           | piece :: pieces => String c piece :: pieces
           | [] => [String c EmptyString]
           end
  end.

(** [s.slice(n)] for [n] from 0 on. *)
Fixpoint String_slice (n : nat) (s : string) : string :=
  match n, s with
  | O, _ => s
  | S n, String _ s => String_slice n s
  | S _, EmptyString => EmptyString
  end.

(** [s.includes(sub)] *)
Fixpoint includes (sub s : string) : bool :=
  String.prefix sub s ||
  match s with
  | EmptyString => false
  | String _ s => includes sub s
  end.

(** [array.slice(start)]: a negative [start] counts from the end. *)
Definition Array_slice {A} (start : Z) (l : list A) : list A :=
  let len := Z.of_nat (length l) in
  let k := if start <? 0 then Z.max (len + start) 0 else Z.min start len in
  drop (Z.to_nat k) l.

(** The parsed [req.url].  [Headers] are kept under their lower-case names,
    which is how [get] and [set] compare them. *)
Module URL.
Record t := mk {
  protocol : string;
  pathname : string;
}.
End URL.

Module Request.
Record t := mk {
  url : URL.t;
  headers : gmap string string;
  params_name : string;
}.
End Request.

Inductive JsonValue := JsonString (s : string) | JsonBool (b : bool).

(** [body] is the object given to [JSON.stringify], property by property. *)
Module Response.
Record t := mk {
  status : nat;
  statusText : string;
  headers : gmap string string;
  body : list (string * JsonValue);
}.
End Response.

(** A thrown value: a [ValidationError], another [Error], or a value that is
    no [Error], given by its [String(error)]. *)
Inductive Thrown :=
  | ValidationError (message : string)
  | OtherError (message : string)
  | NotAnError (text : string).

Inductive AuditEventType :=
  | AUTH_SUCCESS | AUTH_FAILURE | RATE_LIMIT_EXCEEDED | INVALID_INPUT
  | JOB_TRIGGERED | JOB_PAUSED | JOB_RESUMED | HTTPS_REQUIRED.

#[global] Instance AuditEventType_eq_dec : EqDecision AuditEventType.
Proof. solve_decision. Defined.

Module AuditLogger.
Section AuditLogger.
Context `{Platform}.

Record AuditEvent := {
  timestamp : Z;
  type : AuditEventType;
  ip : string;
  path : string;
  details : option string;
}.

Definition maxEvents : nat := 1000.

Definition getClientIP (req : Request.t) : string :=
  match truthy (Request.headers req !! "x-forwarded-for") with
  | Some forwardedFor =>
      from_option String_trim "unknown" (head (split ","%char forwardedFor))
  | None =>
      match truthy (Request.headers req !! "x-real-ip") with
      | Some realIP => realIP
      | None => "unknown"
      end
  end.

(** [events] is the array, oldest first; [push], then [shift] when the array
    got longer than [maxEvents]. *)
Definition log (events : list AuditEvent) (type : AuditEventType)
    (req : Request.t) (details : option string) (now : Z)
    : list AuditEvent :=
  let event :=
    {| timestamp := now; type := type; ip := getClientIP req;
       path := URL.pathname (Request.url req); details := details |} in
  let events := events ++ [event] in
  if (maxEvents <? length events)%nat then drop 1 events else events.

Definition getRecentEvents (events : list AuditEvent) (limit : Z)
    : list AuditEvent :=
  Array_slice (- limit) events.

Definition getEventsByType (events : list AuditEvent) (type' : AuditEventType)
    (limit : Z) : list AuditEvent :=
  Array_slice (- limit)
    (List.filter (λ e, bool_decide (type e = type')) events).

(** Calls of [log], one after the other. *)
Record Logged := {
  logged_type : AuditEventType;
  logged_req : Request.t;
  logged_details : option string;
  logged_now : Z;
}.

Definition logged_event (call : Logged) : AuditEvent :=
  {| timestamp := logged_now call; type := logged_type call;
     ip := getClientIP (logged_req call);
     path := URL.pathname (Request.url (logged_req call));
     details := logged_details call |}.

Definition log_all (events : list AuditEvent) (calls : list Logged)
    : list AuditEvent :=
  foldl (λ events call,
           log events (logged_type call) (logged_req call)
             (logged_details call) (logged_now call)) events calls.

End AuditLogger.
End AuditLogger.

Module RateLimiter.
Section RateLimiter.
Context `{Platform}.

Record RateLimitEntry := {
  count : Z;
  resetTime : Z;
}.

Definition RATE_LIMIT_WINDOW : Z := RATE_LIMIT_WINDOW_seconds * 1000.

Definition getClientIP (req : Request.t) : string :=
  match truthy (Request.headers req !! "x-forwarded-for") with
  | Some forwardedFor =>
      from_option String_trim "unknown" (head (split ","%char forwardedFor))
  | None => default "unknown" (truthy (Request.headers req !! "x-real-ip"))
  end.

(** [now] is [Date.now()]. *)
Definition check (requests : gmap string RateLimitEntry) (req : Request.t)
    (now : Z) : gmap string RateLimitEntry * bool :=
  let ip := getClientIP req in
  let fresh :=
    (<[ip := {| count := 1; resetTime := now + RATE_LIMIT_WINDOW |}]> requests,
     true) in
  match requests !! ip with
  | None => fresh
  | Some entry =>
      if resetTime entry <? now then fresh
      else
        let entry := {| count := count entry + 1;
                        resetTime := resetTime entry |} in
        (<[ip := entry]> requests,
         if RATE_LIMIT_MAX <? count entry then false else true)
  end.

Definition cleanup (requests : gmap string RateLimitEntry) (now : Z)
    : gmap string RateLimitEntry :=
  filter (λ kv, ¬ (resetTime kv.2 < now)) requests.

(** Calls of [check] for one request, at the times given, with what each
    returned. *)
Fixpoint check_all (requests : gmap string RateLimitEntry) (req : Request.t)
    (times : list Z) : gmap string RateLimitEntry * list bool :=
  match times with
  | [] => (requests, [])
  | now :: times =>
      let '(requests, allowed) := check requests req now in
      let '(requests, results) := check_all requests req times in
      (requests, allowed :: results)
  end.

End RateLimiter.
End RateLimiter.

Section Security.
Context `{Platform}.

Definition DASHBOARD_USERNAME : string :=
  default "admin" (truthy (process_env "DASHBOARD_USERNAME")).

Definition DASHBOARD_PASSWORD : string :=
  default "" (truthy (process_env "DASHBOARD_PASSWORD")).

Definition API_KEY : string :=
  default "" (truthy (process_env "API_KEY")).

Definition REQUIRE_HTTPS : bool :=
  bool_decide (process_env "REQUIRE_HTTPS" = Some "true").

Definition ENABLE_SECURITY_HEADERS : bool :=
  negb (bool_decide (process_env "ENABLE_SECURITY_HEADERS" = Some "false")).

(** The character class of [/^[a-zA-Z0-9\-_.]+$/]. *)
Definition validChar (c : ascii) : bool :=
  let n := nat_of_ascii c in
  ((97 <=? n) && (n <=? 122) || (65 <=? n) && (n <=? 90)
   || (48 <=? n) && (n <=? 57) || (n =? 45) || (n =? 95) || (n =? 46))%nat.

(** [validPattern.test(name)]: one or more characters, all of the class. *)
Definition validPattern_test (name : string) : bool :=
  match name with
  | EmptyString => false
  | _ => forallb validChar (String.list_ascii_of_string name)
  end.

(** [validateJobName]; what it throws is a [ValidationError]. *)
Definition validateJobName (name : string) : Completion :=
  match name with
  | EmptyString => Throw "Job name is required"
  | _ =>
      if negb (validPattern_test name) then
        Throw "Job name can only contain letters, numbers, dashes, underscores, and dots"
      else if (100 <? String.length name)%nat then
        Throw "Job name must be 100 characters or less"
      else if includes ".." name || includes "/" name || includes "\" name
      then Throw "Job name contains invalid characters"
      else Normal
  end.

Inductive AuthMethod := BASIC | API_KEY_method | NONE.

Definition AuthMethod_value (method : AuthMethod) : string :=
  match method with
  | BASIC => "basic"
  | API_KEY_method => "api_key"
  | NONE => "none"
  end.

Record AuthResult := {
  auth_success : bool;
  auth_method : option AuthMethod;
  auth_username : option string;
}.

Definition authenticateWithBasic (authHeader : string) : AuthResult :=
  let failure := {| auth_success := false; auth_method := Some BASIC;
                    auth_username := None |} in
  let base64Credentials := String_slice 6 authHeader in
  match atob base64Credentials with
  | None => failure
  | Some credentials =>
      let pieces := split ":"%char credentials in
      let username := pieces !! 0%nat in
      let password := pieces !! 1%nat in
      if bool_decide (username = Some DASHBOARD_USERNAME)
         && bool_decide (password = Some DASHBOARD_PASSWORD)
      then {| auth_success := true; auth_method := Some BASIC;
              auth_username := username |}
      else failure
  end.

Definition authenticateWithAPIKey (authHeader : string) : AuthResult :=
  let providedKey := String_slice 7 authHeader in
  if bool_decide (providedKey = API_KEY)
  then {| auth_success := true; auth_method := Some API_KEY_method;
          auth_username := None |}
  else {| auth_success := false; auth_method := Some API_KEY_method;
          auth_username := None |}.

Definition json_headers : gmap string string :=
  {[ "content-type" := "application/json" ]}.

Definition createUnauthorizedResponse : Response.t :=
  {| Response.status := 401; Response.statusText := "";
     Response.headers :=
       <[ "www-authenticate" :=
            "Basic realm=" +:+ dquote +:+ "Bun Cron Manager" +:+ dquote ]>
         json_headers;
     Response.body :=
       [("error", JsonString "Unauthorized");
        ("message",
         JsonString "Invalid or missing authentication credentials")] |}.

(** [requireAuth] acts on the events of the audit logger; [now] is the time
    its one call of [log] reads. *)
Definition requireAuth (events : list AuditLogger.AuditEvent)
    (req : Request.t) (now : Z)
    : list AuditLogger.AuditEvent * option Response.t :=
  match truthy (Request.headers req !! "authorization") with
  | None => (events, Some createUnauthorizedResponse)
  | Some authHeader =>
      let decided authResult :=
        if negb (auth_success authResult) then
          (AuditLogger.log events AUTH_FAILURE req
             (AuthMethod_value <$> auth_method authResult) now,
           Some createUnauthorizedResponse)
        else
          (AuditLogger.log events AUTH_SUCCESS req
             (Some (from_option AuthMethod_value "undefined"
                      (auth_method authResult)
                    +:+ match truthy (auth_username authResult) with
                        | Some username => " (" +:+ username +:+ ")"
                        | None => ""
                        end)) now,
           None) in
      if bool_decide (API_KEY ≠ "") && String.prefix "Bearer " authHeader
      then decided (authenticateWithAPIKey authHeader)
      else if String.prefix "Basic " authHeader
      then decided (authenticateWithBasic authHeader)
      else (events, Some createUnauthorizedResponse)
  end.

Definition requireHTTPS (events : list AuditLogger.AuditEvent)
    (req : Request.t) (now : Z)
    : list AuditLogger.AuditEvent * option Response.t :=
  if negb REQUIRE_HTTPS then (events, None)
  else
    let protocol :=
      default (URL.protocol (Request.url req))
        (truthy (Request.headers req !! "x-forwarded-proto")) in
    if negb (bool_decide (protocol = "https:")) then
      (AuditLogger.log events HTTPS_REQUIRED req None now,
       Some {| Response.status := 403; Response.statusText := "";
               Response.headers := json_headers;
               Response.body :=
                 [("error", JsonString "HTTPS Required");
                  ("message",
                   JsonString "This service requires HTTPS. Please use https:// instead of http://")] |})
    else (events, None).

Definition addSecurityHeaders (response : Response.t) : Response.t :=
  if negb ENABLE_SECURITY_HEADERS then response
  else
    let headers := Response.headers response in
    let headers := <[ "x-frame-options" := "DENY" ]> headers in
    let headers := <[ "x-content-type-options" := "nosniff" ]> headers in
    let headers := <[ "x-xss-protection" := "1; mode=block" ]> headers in
    let headers :=
      <[ "referrer-policy" := "strict-origin-when-cross-origin" ]> headers in
    let headers :=
      <[ "content-security-policy" :=
           "default-src 'self'; script-src 'self' 'unsafe-inline'; style-src 'self' 'unsafe-inline'; img-src 'self' data:; font-src 'self' data:;" ]>
        headers in
    let headers :=
      match Response.headers response !! "content-type" with
      | Some contentType =>
          if includes "application/json" contentType then
            <[ "pragma" := "no-cache" ]>
              (<[ "cache-control" :=
                    "no-store, no-cache, must-revalidate, private" ]> headers)
          else headers
      | None => headers
      end in
    {| Response.status := Response.status response;
       Response.statusText := Response.statusText response;
       Response.headers := headers;
       Response.body := Response.body response |}.

Definition createErrorResponse (error : Thrown) (includeDetails : bool)
    : Response.t :=
  let '(statusCode, errorMessage, errorType) :=
    match error with
    | ValidationError message => (400%nat, message, "ValidationError")
    | _ => (500%nat, "Internal server error", "ServerError")
    end in
  let details :=
    if includeDetails
       && bool_decide (process_env "NODE_ENV" = Some "development")
    then [("details",
           JsonString match error with
                      | ValidationError message | OtherError message => message
                      | NotAnError text => text
                      end)]
    else [] in
  {| Response.status := statusCode; Response.statusText := "";
     Response.headers := json_headers;
     Response.body :=
       [("error", JsonString errorType); ("message", JsonString errorMessage)]
       ++ details |}.

(** [validateSecurityConfig]: what it collects, and whether it ends the
    process with [process.exit(1)].  The lines it prints for information
    are left out. *)
Record StartupReport := {
  warnings : list string;
  errors : list string;
  exits : bool;
}.

Definition validateSecurityConfig : StartupReport :=
  let production := bool_decide (process_env "NODE_ENV" = Some "production") in
  let weak :=
    bool_decide (DASHBOARD_PASSWORD = "")
    || bool_decide (DASHBOARD_PASSWORD = "change-this-password")
    || bool_decide
         (DASHBOARD_PASSWORD = "change-this-password-to-something-secure")
    || (String.length DASHBOARD_PASSWORD <? 8)%nat in
  let errors :=
    if weak && production then
      ["❌ SECURITY ERROR: Weak or default password detected in production!";
       "   Set a strong DASHBOARD_PASSWORD in your environment variables.";
       "   Generate one with: bun -e " +:+ dquote
       +:+ "console.log(require('crypto').randomBytes(32).toString('base64'))"
       +:+ dquote]
    else [] in
  let warnings :=
    if weak && negb production then
      ["⚠️  WARNING: Weak or default password detected. Please set DASHBOARD_PASSWORD before deploying."]
    else [] in
  let warnings :=
    if production && negb REQUIRE_HTTPS then
      warnings ++
      ["⚠️  WARNING: HTTPS enforcement is disabled in production. Set REQUIRE_HTTPS=true to enhance security."]
    else warnings in
  {| warnings := warnings; errors := errors;
     exits := (0 <? length errors)%nat && production |}.

(** The two singletons of the module, [auditLogger] and [rateLimiter]. *)
Record Security := {
  events : list AuditLogger.AuditEvent;
  requests : gmap string RateLimiter.RateLimitEntry;
}.

(** A middleware with its request, and with the clock readings it will make,
    acts on the singletons. *)
Definition SecurityMiddleware := Security → Security * option Response.t.

Fixpoint applySecurityMiddleware (security : Security)
    (middlewares : list SecurityMiddleware) : Security * option Response.t :=
  match middlewares with
  | [] => (security, None)
  | middleware :: middlewares =>
      match middleware security with
      | (security, Some response) => (security, Some response)
      | (security, None) => applySecurityMiddleware security middlewares
      end
  end.

(** [Math.ceil(a / b)] for integers, [b] positive. *)
Definition ceil_div (a b : Z) : Z := - ((- a) `div` b).

(** [now] is the [Date.now()] of [check], [logged] the time [log] reads. *)
Definition requireRateLimit (req : Request.t) (now logged : Z)
    : SecurityMiddleware := λ security,
  let '(requests, allowed) :=
    RateLimiter.check (requests security) req now in
  if negb allowed then
    ({| events :=
          AuditLogger.log (events security) RATE_LIMIT_EXCEEDED req None logged;
        requests := requests |},
     Some {| Response.status := 429; Response.statusText := "";
             Response.headers :=
               <[ "retry-after" :=
                    pretty (ceil_div RateLimiter.RATE_LIMIT_WINDOW 1000) ]>
                 json_headers;
             Response.body :=
               [("error", JsonString "Rate Limit Exceeded");
                ("message",
                 JsonString
                   ("Too many requests. Maximum " +:+ pretty RATE_LIMIT_MAX
                    +:+ " requests per "
                    +:+ pretty (RateLimiter.RATE_LIMIT_WINDOW `div` 1000)
                    +:+ " seconds."))] |})
  else ({| events := events security; requests := requests |}, None).

(** [requireHTTPS] and [requireAuth] as middlewares. *)
Definition on_events
    (f : list AuditLogger.AuditEvent →
         list AuditLogger.AuditEvent * option Response.t)
    : SecurityMiddleware := λ security,
  let '(events, response) := f (events security) in
  ({| events := events; requests := requests security |}, response).

End Security.

(** * index.ts: the routes that control a job

    The handlers of [/api/jobs/:name/trigger], [/pause] and [/resume] are
    the same text up to the manager method, the audit event and the two
    messages. *)
Section Routes.
Context `{Croner} `{Platform}.

Record Server := {
  manager : CronManager;
  security : Security;
}.

(** The clock readings of one request, in the order they are made. *)
Record Readings := {
  at_https : Z;
  at_check : Z;
  at_limit_log : Z;
  at_auth : Z;
  at_route : Z;
}.

(** [requireHTTPS, requireRateLimit, requireAuth] *)
Definition protected (req : Request.t) (t : Readings)
    : list SecurityMiddleware :=
  [on_events (λ events, requireHTTPS events req (at_https t));
   requireRateLimit req (at_check t) (at_limit_log t);
   on_events (λ events, requireAuth events req (at_auth t))].

Definition control_route
    (method : CronManager → string → CronManager * bool)
    (eventType : AuditEventType) (succeeded failed : string)
    (server : Server) (req : Request.t) (t : Readings)
    : Server * Response.t :=
  match applySecurityMiddleware (security server) (protected req t) with
  | (security, Some securityError) =>
      ({| manager := manager server; security := security |},
       addSecurityHeaders securityError)
  | (security, None) =>
      match validateJobName (Request.params_name req) with
      | Throw message =>
          ({| manager := manager server;
              security :=
                {| events :=
                     AuditLogger.log (events security) INVALID_INPUT req
                       (Some message) (at_route t);
                   requests := requests security |} |},
           addSecurityHeaders
             (createErrorResponse (ValidationError message) false))
      | Normal =>
          let '(manager, success) :=
            method (manager server) (Request.params_name req) in
          ({| manager := manager;
              security :=
                if success then
                  {| events :=
                       AuditLogger.log (events security) eventType req
                         (Some (Request.params_name req)) (at_route t);
                     requests := requests security |}
                else security |},
           addSecurityHeaders
             {| Response.status := if success then 200 else 404;
                Response.statusText := "";
                Response.headers := json_headers;
                Response.body :=
                  [("success", JsonBool success);
                   ("message",
                    JsonString (if success then succeeded else failed))] |})
      end
  end.

Definition trigger_route (called : Triggered) :=
  control_route (λ manager name, trigger manager name called) JOB_TRIGGERED
    "Job triggered successfully" "Failed to trigger job".

Definition pause_route :=
  control_route pause JOB_PAUSED
    "Job paused successfully" "Failed to pause job".

Definition resume_route :=
  control_route resume JOB_RESUMED
    "Job resumed successfully" "Failed to resume job".

End Routes.

(** ** A deployment to run the module on

    An environment with a password, an API key and HTTPS required, a limit
    of two requests a minute, a [trim] that strips spaces, and an [atob]
    that knows the encoding of the credentials. *)
Module Deployment.

Definition env (name : string) : option string :=
  if String.eqb name "DASHBOARD_PASSWORD" then Some "correct-horse"
  else if String.eqb name "API_KEY" then Some "k3y"
  else if String.eqb name "REQUIRE_HTTPS" then Some "true"
  else None.

Fixpoint trim_start (s : string) : string :=
  match s with
  | String " " s => trim_start s
  | _ => s
  end.

Definition trim (s : string) : string :=
  String.rev (trim_start (String.rev (trim_start s))).

Definition decode (encoded : string) : option string :=
  if String.eqb encoded "YWRtaW46Y29ycmVjdC1ob3JzZQ=="
  then Some "admin:correct-horse"
  else None.

#[export] Instance platform : Platform := {|
  process_env := env;
  RATE_LIMIT_MAX := 2;
  RATE_LIMIT_WINDOW_seconds := 60;
  String_trim := trim;
  atob := decode;
|}.

Definition request (authorization : string) : Request.t :=
  {| Request.url :=
       {| URL.protocol := "https:"; URL.pathname := "/api/jobs/x/trigger" |};
     Request.headers :=
       {[ "authorization" := authorization;
          "x-forwarded-for" := "10.0.0.1, 10.0.0.2" ]};
     Request.params_name := "x" |}.

Definition with_key : Request.t := request "Bearer k3y".

Definition with_password : Request.t :=
  request "Basic YWRtaW46Y29ycmVjdC1ob3JzZQ==".

Definition logged (type : AuditEventType) (now : Z) : AuditLogger.Logged :=
  {| AuditLogger.logged_type := type; AuditLogger.logged_req := with_key;
     AuditLogger.logged_details := None; AuditLogger.logged_now := now |}.

Definition no_security : Security := {| events := []; requests := ∅ |}.

Definition readings (now : Z) : Readings :=
  {| at_https := now; at_check := now; at_limit_log := now; at_auth := now;
     at_route := now |}.

End Deployment.

(** * Properties *)

Section Properties.
Context `{Croner}.

Implicit Types (m : CronManager) (name : string) (e : JobExecution.t).

(** ** The history of one job *)

Lemma history_set_executions_eq m name l :
  history (set_executions <[name := l]> m) name = l.
Proof. unfold history. simpl. by rewrite lookup_insert_eq. Qed.

Lemma history_set_executions_ne m name name' l :
  name ≠ name' →
  history (set_executions <[name := l]> m) name' = history m name'.
Proof. intros Hne. unfold history. simpl. by rewrite lookup_insert_ne. Qed.

Lemma history_recordExecution_eq m name success error startTime endTime
    duration now :
  history
    (recordExecution m name success error startTime endTime duration now) name
  = take (maxExecutionLogs m)
      (execution_of name success error startTime endTime duration now
         :: history m name).
Proof.
  unfold recordExecution. rewrite history_set_executions_eq.
  case_match eqn:Hlt; [done|].
  apply Nat.ltb_ge in Hlt. by rewrite take_ge.
Qed.

Lemma history_recordExecution_ne m name name' success error startTime endTime
    duration now :
  name ≠ name' →
  history
    (recordExecution m name success error startTime endTime duration now) name'
  = history m name'.
Proof. apply history_set_executions_ne. Qed.

Lemma maxExecutionLogs_record_all m name calls :
  maxExecutionLogs (record_all m name calls) = maxExecutionLogs m.
Proof.
  revert m. induction calls as [|r calls IH]; intros m; [done|].
  simpl. by rewrite IH.
Qed.

Lemma configs_record_all m name calls :
  configs (record_all m name calls) = configs m.
Proof.
  revert m. induction calls as [|r calls IH]; intros m; [done|].
  simpl. by rewrite IH.
Qed.

Lemma jobs_record_all m name calls :
  jobs (record_all m name calls) = jobs m.
Proof.
  revert m. induction calls as [|r calls IH]; intros m; [done|].
  simpl. by rewrite IH.
Qed.

(** After a batch of records the history is the batch, newest first, in
    front of what was there, cut to the cap. *)
Lemma history_record_all m name calls :
  calls ≠ [] →
  history (record_all m name calls) name
  = take (maxExecutionLogs m)
      (reverse (recorded_execution name <$> calls) ++ history m name).
Proof.
  revert m. induction calls as [|r calls IH]; intros m Hne; [done|].
  destruct calls as [|r' calls].
  - simpl. apply history_recordExecution_eq.
  - change (record_all m name (r :: r' :: calls))
      with (record_all
              (recordExecution m name (rec_success r) (rec_error r)
                 (rec_startTime r) (rec_endTime r) (rec_duration r) (rec_now r))
              name (r' :: calls)).
    rewrite IH by done.
    rewrite history_recordExecution_eq.
    change (maxExecutionLogs (recordExecution _ _ _ _ _ _ _ _))
      with (maxExecutionLogs m).
    fold (recorded_execution name r).
    rewrite (fmap_cons _ r), (reverse_cons _ (recorded_execution name r)).
    rewrite <- (assoc_L (++)). simpl.
    set (front := reverse _).
    set (k := maxExecutionLogs m).
    destruct (decide (k ≤ length front)%nat) as [Hle|Hgt].
    + by rewrite !take_app_le by done.
    + rewrite !take_app_ge by lia. f_equal. rewrite take_take. f_equal. lia.
Qed.

(** ** What every reachable manager satisfies *)

Lemma inv_constructor cap : manager_inv cap (constructor cap).
Proof.
  split; simpl; try done.
  - intros name [? Hl]. by rewrite lookup_empty in Hl.
  - intros name. unfold history. simpl. rewrite lookup_empty. simpl. lia.
  - intros name e. unfold history. simpl. rewrite lookup_empty. simpl.
    by intros ?%elem_of_nil.
Qed.

Lemma inv_set_jobs cap m f :
  manager_inv cap m →
  (∀ name, is_Some (f (jobs m) !! name) → is_Some (configs m !! name)) →
  manager_inv cap (set_jobs f m).
Proof. intros [] Hf. by split. Qed.

Lemma inv_recordExecution cap m name success error startTime endTime
    duration now :
  manager_inv cap m →
  (is_Some error ↔ success = false) →
  manager_inv cap
    (recordExecution m name success error startTime endTime duration now).
Proof.
  intros [Hcap Hjobs Hnames Hlen Hrec] Hfin. split; try done.
  - intros name'. destruct (decide (name = name')) as [<-|Hne].
    + rewrite history_recordExecution_eq, length_take, Hcap. lia.
    + by rewrite history_recordExecution_ne.
  - intros name' e. destruct (decide (name = name')) as [<-|Hne].
    + rewrite history_recordExecution_eq.
      intros [->|He]%subseteq_take%elem_of_cons; [done|]. by apply Hrec.
    + rewrite history_recordExecution_ne by done. apply Hrec.
Qed.

Lemma inv_register cap m config made :
  manager_inv cap m → manager_inv cap (register m config made).1.
Proof.
  intros Hinv. unfold register. case_match eqn:Hjob; [done|].
  set (name := JobConfig.name config).
  assert (manager_inv cap
            (set_executions <[name := []]> (set_configs <[name := config]> m)))
    as Hstored.
  { destruct Hinv as [Hcap Hjobs Hnames Hlen Hrec]. split; simpl; try done.
    - intros name' Hsome. destruct (decide (name = name')) as [<-|Hne].
      + by rewrite lookup_insert_eq.
      + rewrite lookup_insert_ne by done. by apply Hjobs.
    - intros name' config'. destruct (decide (name = name')) as [<-|Hne].
      + rewrite lookup_insert_eq. by intros [= <-].
      + rewrite lookup_insert_ne by done. apply Hnames.
    - intros name'. destruct (decide (name = name')) as [<-|Hne].
      + rewrite history_set_executions_eq. simpl. lia.
      + rewrite history_set_executions_ne by done. apply Hlen.
    - intros name' e. destruct (decide (name = name')) as [<-|Hne].
      + rewrite history_set_executions_eq. by intros ?%elem_of_nil.
      + rewrite history_set_executions_ne by done. apply Hrec. }
  destruct (is_enabled config); [|done].
  unfold createJob. destruct made as [job|message]; [|done].
  apply inv_set_jobs; [done|]. intros name'. simpl.
  destruct (decide (name = name')) as [<-|Hne].
  - intros _. by rewrite lookup_insert_eq.
  - rewrite !lookup_insert_ne by done. apply Hinv.
Qed.

Lemma inv_insert_job cap m name job job' :
  manager_inv cap m → jobs m !! name = Some job →
  manager_inv cap (set_jobs <[name := job']> m).
Proof.
  intros Hinv Hjob. apply inv_set_jobs; [done|]. intros name'.
  destruct (decide (name = name')) as [<-|Hne].
  - intros _. apply Hinv. by rewrite Hjob.
  - rewrite lookup_insert_ne by done. apply Hinv.
Qed.

Lemma inv_stop cap m name :
  manager_inv cap m → manager_inv cap (stop m name).1.
Proof.
  intros Hinv. unfold stop. case_match eqn:Hjob; [|done].
  apply inv_set_jobs; [by eapply inv_insert_job|]. simpl. intros name'.
  destruct (decide (name = name')) as [<-|Hne].
  - rewrite lookup_delete_eq. by intros [? [=]].
  - rewrite lookup_delete_ne, lookup_insert_ne by done. apply Hinv.
Qed.

Lemma inv_stopAll cap m : manager_inv cap m → manager_inv cap (stopAll m).
Proof.
  intros Hinv. unfold stopAll. apply inv_set_jobs.
  - apply inv_set_jobs; [done|]. intros name. rewrite lookup_fmap.
    intros ?%fmap_is_Some. by apply Hinv.
  - intros name [? Hl]. by rewrite lookup_empty in Hl.
Qed.

Lemma inv_step cap m m' : manager_inv cap m → step m m' → manager_inv cap m'.
Proof.
  intros Hinv Hstep. destruct Hstep.
  - by apply inv_register.
  - unfold trigger. case_match eqn:Hjob; [|done].
    destruct called; [by eapply inv_insert_job|].
    apply inv_recordExecution; [by eapply inv_insert_job|]. by split.
  - unfold pause. case_match eqn:Hjob; [|done]. by eapply inv_insert_job.
  - unfold resume. case_match eqn:Hjob; [|done]. by eapply inv_insert_job.
  - by apply inv_stop.
  - by apply inv_stopAll.
  - unfold wrapper_end. destruct outcome.
    + apply inv_recordExecution; [done|]. split; [by intros [? [=]]|done].
    + apply inv_recordExecution; [done|]. by split.
  - apply inv_recordExecution; [done|]. by split.
  - by eapply inv_insert_job.
Qed.

Lemma reachable_inv cap m : reachable cap m → manager_inv cap m.
Proof.
  unfold reachable. revert m. apply rtc_ind_r.
  - apply inv_constructor.
  - intros m m' _ Hstep IH. by eapply inv_step.
Qed.

Lemma history_record_all_ne m name name' calls :
  name ≠ name' → history (record_all m name calls) name' = history m name'.
Proof.
  intros Hne. revert m. induction calls as [|r calls IH]; intros m; [done|].
  simpl. rewrite IH. by apply history_recordExecution_ne.
Qed.

(** ** The history cap *)

(** C3.  In a reachable manager no history is longer than the cap
    [maxExecutionLogs].  Recording one execution puts it in front and cuts
    the array to the cap, so the oldest record goes when the array was full.
    After recording more executions than the cap for one job, that job's
    history holds exactly cap records: the last cap ones recorded, newest
    first; no history is longer than the cap afterwards either. *)
Theorem history_capped cap m name (calls : list Recorded) :
  reachable cap m →
  (cap < length calls)%nat →
  let recorded := recorded_execution name <$> calls in
  let m' := record_all m name calls in
  (∀ name', (length (history m name') ≤ cap)%nat) ∧
  (∀ r, history (record_all m name [r]) name
        = take cap (recorded_execution name r :: history m name)) ∧
  history m' name = take cap (reverse recorded) ∧
  history m' name = reverse (drop (length calls - cap) recorded) ∧
  length (history m' name) = cap ∧
  (∀ name', (length (history m' name') ≤ cap)%nat).
Proof.
  intros Hreach Hlt recorded m'.
  destruct (reachable_inv _ _ Hreach) as [Hcap _ _ Hlen _].
  assert (history m' name = take cap (reverse recorded)) as Hhist.
  { unfold m'. rewrite history_record_all by (intros ->; simpl in Hlt; lia).
    rewrite Hcap. apply take_app_le.
    unfold recorded. rewrite length_reverse, length_fmap. lia. }
  assert (length (history m' name) = cap) as Hexact.
  { rewrite Hhist, length_take, length_reverse.
    unfold recorded. rewrite length_fmap. lia. }
  split_and!; try done.
  - intros r. simpl. rewrite history_recordExecution_eq. by rewrite Hcap.
  - rewrite Hhist, take_reverse. unfold recorded. by rewrite length_fmap.
  - intros name'. destruct (decide (name = name')) as [<-|Hne].
    + by rewrite Hexact.
    + unfold m'. by rewrite history_record_all_ne.
Qed.

(** ** Snapshots *)

Lemma getJob_None m name : configs m !! name = None → getJob m name = None.
Proof. intros Hc. unfold getJob. by rewrite Hc. Qed.

Lemma getJob_Some m name config :
  configs m !! name = Some config →
  ∃ info, getJob m name = Some info
    ∧ JobInfo.name info = JobConfig.name config
    ∧ JobInfo.enabled info = is_enabled config
    ∧ JobInfo.status info = getJobStatus (jobs m !! name)
    ∧ JobInfo.executions info = take 10 (history m name)
    ∧ JobInfo.totalRuns (JobInfo.stats info) = length (history m name)
    ∧ JobInfo.successfulRuns (JobInfo.stats info)
      = length (List.filter (λ e, JobExecution.success e) (history m name))
    ∧ JobInfo.failedRuns (JobInfo.stats info)
      = length (List.filter (λ e, negb (JobExecution.success e))
                  (history m name))
    ∧ JobInfo.averageDuration (JobInfo.stats info)
      = averageDuration (history m name).
Proof. intros Hc. unfold getJob. rewrite Hc. eexists. by split_and!. Qed.

Lemma getJob_is_Some m name :
  is_Some (getJob m name) ↔ is_Some (configs m !! name).
Proof.
  split.
  - intros [info Hget]. destruct (configs m !! name) eqn:Hc; [done|].
    by rewrite getJob_None in Hget.
  - intros [config Hc]. destruct (getJob_Some _ _ _ Hc) as (info & -> & _).
    done.
Qed.

Lemma getJob_status m name info :
  getJob m name = Some info →
  JobInfo.status info = getJobStatus (jobs m !! name).
Proof.
  intros Hget. destruct (configs m !! name) as [config|] eqn:Hc.
  - destruct (getJob_Some _ _ _ Hc) as (info' & Hget' & _ & _ & Hst & _).
    congruence.
  - by rewrite getJob_None in Hget.
Qed.

Lemma filter_split_length {A} (f : A → bool) (l : list A) :
  length l
  = (length (List.filter f l) + length (List.filter (λ x, negb (f x)) l))%nat.
Proof.
  induction l as [|x l IH]; [done|]. simpl.
  destruct (f x); simpl; lia.
Qed.

Lemma filter_all_length {A} (f : A → bool) (l : list A) :
  (∀ x, x ∈ l → f x = true) → length (List.filter f l) = length l.
Proof.
  induction l as [|x l IH]; intros Hall; [done|]. simpl.
  rewrite (Hall x) by left. simpl. f_equal. apply IH.
  intros y Hy. apply Hall. by right.
Qed.

Lemma filter_none_length {A} (f : A → bool) (l : list A) :
  (∀ x, x ∈ l → f x = false) → length (List.filter f l) = 0%nat.
Proof.
  induction l as [|x l IH]; intros Hall; [done|]. simpl.
  rewrite (Hall x) by left. apply IH.
  intros y Hy. apply Hall. by right.
Qed.

Lemma length_omap_all {A B} (f : A → option B) (l : list A) :
  (∀ x, x ∈ l → is_Some (f x)) → length (omap f l) = length l.
Proof.
  induction l as [|x l IH]; intros Hall; [done|]. simpl.
  destruct (Hall x) as [y ->]; [by left|]. simpl. f_equal. apply IH.
  intros z Hz. apply Hall. by right.
Qed.

(** [getAllJobs] has one snapshot per stored definition. *)
Lemma length_getAllJobs m : length (getAllJobs m) = size (configs m).
Proof.
  unfold getAllJobs. rewrite length_omap_all.
  - by rewrite length_fmap, length_map_to_list.
  - intros name [[name' config] [-> Hin]]%list_elem_of_fmap.
    apply elem_of_map_to_list in Hin. apply getJob_is_Some. by eexists.
Qed.

Lemma elem_of_getAllJobs m info :
  info ∈ getAllJobs m → ∃ name, getJob m name = Some info.
Proof.
  unfold getAllJobs. intros (name & _ & Hget)%list_elem_of_omap. by eexists.
Qed.

(** [Math.round] gives the integer nearest to the quotient. *)
Lemma round_div_nearest (total : Z) (n : nat) :
  (0 < n)%nat →
  2 * total - Z.of_nat n < 2 * Z.of_nat n * round_div total n
                         ≤ 2 * total + Z.of_nat n.
Proof.
  intros Hn. unfold round_div.
  pose proof (Z.mul_div_le (2 * total + Z.of_nat n) (2 * Z.of_nat n)).
  pose proof (Z.mul_succ_div_gt (2 * total + Z.of_nat n) (2 * Z.of_nat n)).
  lia.
Qed.

(** C7.  For a name with no stored definition [getJob] returns null.  For a
    registered name it returns a snapshot whose [executions] are the first
    ten records of the retained history, which is kept newest first (a new
    record goes in front), while the four statistics are taken over the
    whole retained history: its length, its successful and its failed
    records, and the mean of the durations rounded to the nearest integer
    (zero for an empty history). *)
Theorem getJob_snapshot m name :
  match configs m !! name with
  | None => getJob m name = None
  | Some config =>
      ∃ info, getJob m name = Some info ∧
        let retained := history m name in
        JobInfo.executions info = take 10 retained ∧
        (length (JobInfo.executions info) ≤ 10)%nat ∧
        JobInfo.totalRuns (JobInfo.stats info) = length retained ∧
        JobInfo.successfulRuns (JobInfo.stats info)
        = length (List.filter (λ e, JobExecution.success e) retained) ∧
        JobInfo.failedRuns (JobInfo.stats info)
        = length (List.filter (λ e, negb (JobExecution.success e)) retained) ∧
        (retained = [] → JobInfo.averageDuration (JobInfo.stats info) = 0) ∧
        (retained ≠ [] →
           let n := Z.of_nat (length retained) in
           let mean := JobInfo.averageDuration (JobInfo.stats info) in
           2 * totalDuration retained - n < 2 * n * mean
                                          ≤ 2 * totalDuration retained + n) ∧
        (∀ r, ∃ info',
           getJob (record_all m name [r]) name = Some info' ∧
           JobInfo.executions info'
           = take 10 (take (maxExecutionLogs m)
                        (recorded_execution name r :: retained)))
  end.
Proof.
  destruct (configs m !! name) as [config|] eqn:Hc; [|by apply getJob_None].
  destruct (getJob_Some _ _ _ Hc)
    as (info & Hget & _ & _ & _ & Hex & Htot & Hok & Hko & Havg).
  exists info. split; [done|]. simpl. split_and!; try done.
  - rewrite Hex, length_take. lia.
  - intros Hnil. by rewrite Havg, Hnil.
  - intros Hne. rewrite Havg. unfold averageDuration.
    destruct (history m name) as [|e l] eqn:Hh; [done|].
    change (0 <? length (e :: l))%nat with true. simpl negb.
    apply round_div_nearest. simpl. lia.
  - intros r.
    assert (configs (record_all m name [r]) !! name = Some config) as Hc'
      by by rewrite configs_record_all.
    destruct (getJob_Some _ _ _ Hc') as (info' & Hget' & _ & _ & _ & Hex' & _).
    exists info'. split; [done|].
    rewrite Hex'. simpl. by rewrite history_recordExecution_eq.
Qed.

(** ** Statistics *)

(** C9.  In every manager state the counts add up: in each snapshot the
    total number of runs is the successful plus the failed ones, and in the
    manager statistics the total number of executions is the successful
    plus the failed ones. *)
Theorem stats_consistent m :
  (∀ name info, getJob m name = Some info →
     JobInfo.totalRuns (JobInfo.stats info)
     = (JobInfo.successfulRuns (JobInfo.stats info)
        + JobInfo.failedRuns (JobInfo.stats info))%nat) ∧
  totalExecutions (getStats m)
  = (successfulExecutions (getStats m) + failedExecutions (getStats m))%nat.
Proof.
  split.
  - intros name info Hget.
    destruct (configs m !! name) as [config|] eqn:Hc.
    + destruct (getJob_Some _ _ _ Hc)
        as (info' & Hget' & _ & _ & _ & _ & Htot & Hok & Hko & _).
      assert (info' = info) as -> by congruence.
      rewrite Htot, Hok, Hko. apply filter_split_length.
    + by rewrite getJob_None in Hget.
  - unfold getStats. simpl. apply filter_split_length.
Qed.

(** ** Registration *)

Lemma register_taken m config made job :
  jobs m !! JobConfig.name config = Some job →
  register m config made
  = (m, Throw (already_exists (JobConfig.name config))).
Proof. intros Hjob. unfold register. by rewrite Hjob. Qed.

Lemma register_Normal m config made m' :
  register m config made = (m', Normal) →
  jobs m !! JobConfig.name config = None
  ∧ configs m' = <[JobConfig.name config := config]> (configs m)
  ∧ executions m' = <[JobConfig.name config := []]> (executions m)
  ∧ (if is_enabled config
     then ∃ job, made = inl job
                 ∧ jobs m' = <[JobConfig.name config := job]> (jobs m)
     else jobs m' = jobs m).
Proof.
  unfold register. destruct (jobs m !! JobConfig.name config); [done|].
  destruct (is_enabled config).
  - unfold createJob. destruct made as [job|message]; [|done].
    intros [= <-]. split_and!; try done. by exists job.
  - by intros [= <-].
Qed.

(** C4 (amended).  After a successful [register(c)] the job has a snapshot.
    With [c] enabled (the flag omitted or true) its status is the one of the
    runtime just created: idle when that runtime is not stopped, is running
    and is not busy.  With [enabled] false no runtime is created and the
    status is stopped, the definition being retained. *)
Theorem status_after_register m config made m' :
  register m config made = (m', Normal) →
  ∃ info, getJob m' (JobConfig.name config) = Some info ∧
    JobInfo.name info = JobConfig.name config ∧
    (is_enabled config = true →
       ∃ job, made = inl job ∧
         JobInfo.status info = getJobStatus (Some job) ∧
         (isStopped job = false → isRunning job = true → isBusy job = false →
          JobInfo.status info = idle)) ∧
    (JobConfig.enabled config = Some false →
       JobInfo.status info = stopped ∧ JobInfo.enabled info = false).
Proof.
  intros (Hfree & Hconfigs & _ & Hjobs)%register_Normal.
  assert (configs m' !! JobConfig.name config = Some config) as Hc
    by by rewrite Hconfigs, lookup_insert_eq.
  destruct (getJob_Some _ _ _ Hc) as (info & Hget & Hname & Hen & Hst & _).
  exists info. split_and!; try done.
  - intros Henabled. rewrite Henabled in Hjobs.
    destruct Hjobs as (job & -> & Hjobs). exists job.
    rewrite Hst, Hjobs, lookup_insert_eq. split_and!; try done.
    intros Hs Hr Hb. unfold getJobStatus. by rewrite Hs, Hr, Hb.
  - intros Hoff. unfold is_enabled in Hjobs, Hen. rewrite Hoff in Hjobs, Hen.
    by rewrite Hst, Hjobs, Hfree.
Qed.

(** ** Control *)

Lemma no_runtime_no_control m name :
  jobs m !! name = None →
  (∀ called, trigger m name called = (m, false)) ∧ pause m name = (m, false)
  ∧ resume m name = (m, false) ∧ stop m name = (m, false).
Proof.
  intros Hjob. unfold trigger, pause, resume, stop. by rewrite Hjob.
Qed.

Lemma stop_true m name m' :
  stop m name = (m', true) →
  is_Some (jobs m !! name) ∧ jobs m' = delete name (jobs m)
  ∧ configs m' = configs m ∧ executions m' = executions m.
Proof.
  unfold stop. destruct (jobs m !! name) as [job|]; [|done].
  intros [= <-]. simpl. split_and!; try done.
  by rewrite delete_insert_eq.
Qed.

Lemma stop_state m name :
  jobs (stop m name).1 !! name = None
  ∧ configs (stop m name).1 = configs m
  ∧ executions (stop m name).1 = executions m.
Proof.
  unfold stop. destruct (jobs m !! name) as [job|] eqn:Hjob; [|done].
  simpl. by rewrite lookup_delete_eq.
Qed.

(** C1 (amended).  For a registered name, whatever the state of its job,
    [stop] leaves no runtime under the name but keeps the stored definition
    and the history: [getJob] afterwards returns the job's snapshot, with
    status stopped and the records it had, not null. *)
Theorem stop_keeps_definition m name config :
  configs m !! name = Some config →
  let m' := (stop m name).1 in
  jobs m' !! name = None ∧
  ∃ info, getJob m' name = Some info ∧
    JobInfo.name info = JobConfig.name config ∧
    JobInfo.status info = stopped ∧
    JobInfo.executions info = take 10 (history m name).
Proof.
  intros Hc m'. destruct (stop_state m name) as (Hjob & Hconfigs & Hexec).
  split; [done|].
  assert (configs m' !! name = Some config) as Hc'
    by (unfold m'; by rewrite Hconfigs).
  destruct (getJob_Some _ _ _ Hc') as (info & Hget & Hname & _ & Hst & Hex & _).
  exists info. split_and!; try done.
  - unfold m' in Hst. by rewrite Hst, Hjob.
  - rewrite Hex. unfold history, m'. by rewrite Hexec.
Qed.

(** C6 (amended).  Each of [trigger], [pause], [resume] and [stop] returns a
    boolean.  For a name with no runtime (never registered, registered with
    [enabled] false, or stopped) each returns false and changes nothing.
    For a name with a runtime, [trigger], [pause] and [stop] return true
    whatever state the job is in, and [resume] returns what the runtime's
    own [resume] returns. *)
Theorem control_results m name (called : Triggered) :
  match jobs m !! name with
  | None =>
      trigger m name called = (m, false) ∧ pause m name = (m, false)
      ∧ resume m name = (m, false) ∧ stop m name = (m, false)
  | Some job =>
      (trigger m name called).2 = true ∧ (pause m name).2 = true
      ∧ (stop m name).2 = true
      ∧ (resume m name).2 = (Cron_resume job).2
  end.
Proof.
  destruct (jobs m !! name) as [job|] eqn:Hjob.
  - unfold trigger, pause, resume, stop. by rewrite Hjob.
  - destruct (no_runtime_no_control _ _ Hjob) as (Htrigger & ? & ? & ?).
    by rewrite Htrigger.
Qed.

(** C10.  A job registered with [enabled] false has no runtime: [trigger],
    [pause] and [resume] on its name return false and change nothing, while
    [getJob] returns its snapshot; this holds in every manager in which the
    registration succeeds, a new one included.  The same holds for a job of
    a reachable manager once [stop] has stopped it. *)
Theorem control_without_runtime :
  (∀ m config made m1,
     JobConfig.enabled config = Some false →
     register m config made = (m1, Normal) →
     (∀ called, trigger m1 (JobConfig.name config) called = (m1, false)) ∧
     pause m1 (JobConfig.name config) = (m1, false) ∧
     resume m1 (JobConfig.name config) = (m1, false) ∧
     ∃ info, getJob m1 (JobConfig.name config) = Some info
             ∧ JobInfo.name info = JobConfig.name config
             ∧ JobInfo.enabled info = false) ∧
  (∀ cap m name m2,
     reachable cap m →
     stop m name = (m2, true) →
     (∀ called, trigger m2 name called = (m2, false)) ∧
     pause m2 name = (m2, false) ∧
     resume m2 name = (m2, false) ∧
     ∃ info, getJob m2 name = Some info ∧ JobInfo.name info = name).
Proof.
  split.
  - intros m config made m1 Hoff Hreg.
    apply register_Normal in Hreg as (Hfree & Hconfigs & _ & Hjobs).
    assert (is_enabled config = false) as Hdis
      by (unfold is_enabled; by rewrite Hoff).
    rewrite Hdis in Hjobs.
    assert (jobs m1 !! JobConfig.name config = None) as Hnone
      by by rewrite Hjobs.
    destruct (no_runtime_no_control _ _ Hnone) as (Htrigger & -> & -> & _).
    split_and!; try done.
    assert (configs m1 !! JobConfig.name config = Some config) as Hc
      by by rewrite Hconfigs, lookup_insert_eq.
    destruct (getJob_Some _ _ _ Hc) as (info & Hget & Hname & Hen & _).
    exists info. split_and!; try done. by rewrite Hen.
  - intros cap m name m2 Hreach Hstop.
    apply stop_true in Hstop as (Hsome & Hjobs & Hconfigs & _).
    assert (jobs m2 !! name = None) as Hnone
      by by rewrite Hjobs, lookup_delete_eq.
    destruct (no_runtime_no_control _ _ Hnone) as (Htrigger & -> & -> & _).
    split_and!; try done.
    destruct (reachable_inv _ _ Hreach) as [_ Hsub Hnames _ _].
    destruct (Hsub _ Hsome) as [config' Hc].
    assert (configs m2 !! name = Some config') as Hc' by by rewrite Hconfigs.
    destruct (getJob_Some _ _ _ Hc') as (info & Hget & Hname & _).
    exists info. split; [done|]. rewrite Hname. by apply Hnames.
Qed.

(** ** Shutdown *)

(** C5 (amended).  [stopAll] stops every runtime and empties [jobs]; the
    stored definitions and the histories stay.  Afterwards every registered
    job reports the status stopped, [getAllJobs] still returns one snapshot
    per registered job, and [getStats] counts every registered job, all of
    them as stopped and none as running or paused. *)
Theorem stopAll_keeps_definitions m :
  let m' := stopAll m in
  jobs m' = ∅ ∧ configs m' = configs m ∧ executions m' = executions m ∧
  (∀ name, is_Some (configs m !! name) →
     ∃ info, getJob m' name = Some info ∧ JobInfo.status info = stopped) ∧
  length (getAllJobs m') = size (configs m) ∧
  totalJobs (getStats m') = size (configs m) ∧
  stoppedJobs (getStats m') = size (configs m) ∧
  runningJobs (getStats m') = 0%nat ∧
  pausedJobs (getStats m') = 0%nat.
Proof.
  intros m'.
  assert (∀ info, info ∈ getAllJobs m' → JobInfo.status info = stopped)
    as Hall.
  { intros info [name Hget]%elem_of_getAllJobs.
    by rewrite (getJob_status _ _ _ Hget). }
  assert (length (getAllJobs m') = size (configs m)) as Hlen
    by apply (length_getAllJobs m').
  split_and!; try done.
  - intros name [config Hc].
    destruct (getJob_Some m' name config Hc) as (info & Hget & _ & _ & Hst & _).
    by exists info.
  - unfold getStats, count_status. simpl. rewrite filter_all_length; [done|].
    intros info ->%Hall. done.
  - unfold getStats, count_status. simpl. apply filter_none_length.
    intros info ->%Hall. done.
  - unfold getStats, count_status. simpl. apply filter_none_length.
    intros info ->%Hall. done.
Qed.

(** ** The execution wrapper *)

(** C8 (amended).  The wrapper writes nothing when a run starts: the manager
    is as it was.  When the run completes, one record goes in front of the
    job's history (cut to the cap) and no other history changes; the record
    carries the start time read at the start, the end time, their difference
    as duration, and the success flag; it carries an error message exactly
    when the handler failed.  In a reachable manager every retained record
    has an error message exactly when it is a failure. *)
Theorem wrapper_records_on_completion cap m m' config start outcome finish :
  reachable cap m' →
  let run := (wrapper_begin m config start).2 in
  let record :=
    {| JobExecution.jobName := JobConfig.name config;
       JobExecution.startTime := start;
       JobExecution.endTime := Some finish;
       JobExecution.duration := Some (finish - start);
       JobExecution.success :=
         match outcome with Resolved => true | Rejected _ => false end;
       JobExecution.error :=
         match outcome with
         | Resolved => None
         | Rejected errorMessage => Some errorMessage
         end;
       JobExecution.output := None |} in
  (wrapper_begin m config start).1 = m ∧
  history (wrapper_end m' run outcome finish) (JobConfig.name config)
  = take cap (record :: history m' (JobConfig.name config)) ∧
  (∀ name, name ≠ JobConfig.name config →
     history (wrapper_end m' run outcome finish) name = history m' name) ∧
  (∀ name e, e ∈ history (wrapper_end m' run outcome finish) name →
     is_Some (JobExecution.error e) ↔ JobExecution.success e = false).
Proof.
  intros Hreach run record.
  pose proof (reachable_inv _ _ Hreach) as Hinv.
  assert (manager_inv cap (wrapper_end m' run outcome finish)) as Hinv'.
  { unfold wrapper_end. destruct outcome.
    - apply inv_recordExecution; [done|]. split; [by intros [? [=]]|done].
    - apply inv_recordExecution; [done|]. by split. }
  destruct Hinv as [Hcap _ _ _ _]. split_and!.
  - done.
  - unfold wrapper_end, record.
    destruct outcome; rewrite history_recordExecution_eq, Hcap; done.
  - intros name Hne. unfold wrapper_end.
    destruct outcome; by rewrite history_recordExecution_ne.
  - intros name e He. by apply Hinv' in He as [_ Hfin].
Qed.

End Properties.

(** * Further properties of the manager *)

Section Registry.
Context `{Croner}.

Implicit Types (m : CronManager) (name : string) (e : JobExecution.t).

Lemma getJob_ext m1 m2 name :
  jobs m1 !! name = jobs m2 !! name →
  configs m1 !! name = configs m2 !! name →
  executions m1 !! name = executions m2 !! name →
  getJob m1 name = getJob m2 name.
Proof.
  intros Hj Hc He. unfold getJob, history. by rewrite Hj, Hc, He.
Qed.

Lemma register_other m config made name :
  JobConfig.name config ≠ name →
  jobs (register m config made).1 !! name = jobs m !! name
  ∧ configs (register m config made).1 !! name = configs m !! name
  ∧ executions (register m config made).1 !! name = executions m !! name.
Proof.
  intros Hne. unfold register.
  destruct (jobs m !! JobConfig.name config); [done|].
  destruct (is_enabled config).
  - unfold createJob. destruct made; simpl; by rewrite !lookup_insert_ne.
  - simpl. by rewrite !lookup_insert_ne.
Qed.

(** The job of one name is out of reach of what is done under another name:
    registering, recording an execution, the end of a run, and the four
    controls leave its snapshot as it was. *)
Theorem other_jobs_untouched m name name' :
  name ≠ name' →
  (∀ config made, JobConfig.name config = name →
     getJob (register m config made).1 name' = getJob m name') ∧
  (∀ success error startTime endTime duration now,
     getJob (recordExecution m name success error startTime endTime
               duration now) name' = getJob m name') ∧
  (∀ run outcome now, JobConfig.name (run_config run) = name →
     getJob (wrapper_end m run outcome now) name' = getJob m name') ∧
  (∀ called, getJob (trigger m name called).1 name' = getJob m name') ∧
  getJob (pause m name).1 name' = getJob m name' ∧
  getJob (resume m name).1 name' = getJob m name' ∧
  getJob (stop m name).1 name' = getJob m name'.
Proof.
  intros Hne.
  assert (∀ success error startTime endTime duration now,
     getJob (recordExecution m name success error startTime endTime
               duration now) name' = getJob m name') as Hrec.
  { intros. apply getJob_ext; simpl; try done. by rewrite lookup_insert_ne. }
  split_and!.
  - intros config made <-.
    destruct (register_other m config made name' Hne) as (? & ? & ?).
    by apply getJob_ext.
  - done.
  - intros run outcome now <-. unfold wrapper_end. destruct outcome; apply Hrec.
  - intros called. unfold trigger. destruct (jobs m !! name); [|done].
    destruct called; apply getJob_ext; simpl; try done;
      by rewrite lookup_insert_ne.
  - unfold pause. destruct (jobs m !! name); [|done].
    apply getJob_ext; simpl; try done. by rewrite lookup_insert_ne.
  - unfold resume. destruct (jobs m !! name); [|done].
    apply getJob_ext; simpl; try done. by rewrite lookup_insert_ne.
  - unfold stop. destruct (jobs m !! name); [|done].
    apply getJob_ext; simpl; try done.
    by rewrite lookup_delete_ne, lookup_insert_ne.
Qed.

Lemma step_configs m m' name :
  step m m' → is_Some (configs m !! name) → is_Some (configs m' !! name).
Proof.
  intros Hstep Hc. destruct Hstep; simpl; try done.
  - unfold register. destruct (jobs m !! JobConfig.name config); [done|].
    assert (is_Some (<[JobConfig.name config := config]> (configs m) !! name))
      as Hc'.
    { destruct (decide (JobConfig.name config = name)) as [->|Hne].
      - by rewrite lookup_insert_eq.
      - by rewrite lookup_insert_ne. }
    destruct (is_enabled config); [|done].
    unfold createJob. by destruct made.
  - unfold trigger. destruct (jobs m !! name0); [|done]. by destruct called.
  - unfold pause. by destruct (jobs m !! name0).
  - unfold resume. by destruct (jobs m !! name0).
  - unfold stop. by destruct (jobs m !! name0).
  - unfold wrapper_end. by destruct outcome.
Qed.

Lemma step_maxExecutionLogs m m' :
  step m m' → maxExecutionLogs m' = maxExecutionLogs m.
Proof.
  intros Hstep. destruct Hstep; simpl; try done.
  - unfold register. destruct (jobs m !! JobConfig.name config); [done|].
    destruct (is_enabled config); [|done].
    unfold createJob. by destruct made.
  - unfold trigger. destruct (jobs m !! name); [|done]. by destruct called.
  - unfold pause. by destruct (jobs m !! name).
  - unfold resume. by destruct (jobs m !! name).
  - unfold stop. by destruct (jobs m !! name).
  - unfold wrapper_end. by destruct outcome.
Qed.

Lemma steps_configs m m' name :
  rtc step m m' → is_Some (configs m !! name) → is_Some (configs m' !! name).
Proof.
  induction 1 as [m|m m1 m' Hstep _ IH]; [done|].
  intros Hc. apply IH. by eapply step_configs.
Qed.

(** No method forgets a job: once [getJob] finds a name it finds it after
    any further steps of the manager, and the cap stays what the constructor
    was given. *)
Theorem registered_for_good m m' name :
  rtc step m m' →
  is_Some (getJob m name) →
  is_Some (getJob m' name) ∧ maxExecutionLogs m' = maxExecutionLogs m.
Proof.
  intros Hsteps. rewrite !getJob_is_Some. intros Hc.
  split; [by eapply steps_configs|]. clear Hc.
  induction Hsteps as [m|m m1 m' Hstep _ IH]; [done|].
  rewrite IH. by apply step_maxExecutionLogs.
Qed.

Lemma recorded_part_ext m1 m2 name :
  configs m1 = configs m2 → executions m1 = executions m2 →
  recorded_part <$> getJob m1 name = recorded_part <$> getJob m2 name.
Proof.
  intros Hc He. unfold getJob, history. rewrite Hc, He.
  by destruct (configs m2 !! name).
Qed.

(** What [trigger] records when the handler throws at once is what the
    [catch] branch of the wrapper records, the wrapper being the one made
    for a configuration of that name. *)
Lemma trigger_threw_at_once m name job config errorMessage startTime endTime :
  jobs m !! name = Some job →
  JobConfig.name config = name →
  (trigger m name (ThrewAtOnce errorMessage startTime endTime)).1
  = let started :=
      wrapper_begin (set_jobs <[name := Cron_trigger job]> m) config startTime
    in wrapper_end started.1 started.2 (Rejected errorMessage) endTime.
Proof. intros Hjob <-. unfold trigger. by rewrite Hjob. Qed.

(** [pause], [resume], [stop] and [stopAll] act on runtimes only: after any
    of them every job's snapshot has the definition, the executions and the
    statistics it had before.  So it is after [trigger] when the wrapper is
    left suspended at its [await].  When the handler throws at once,
    [trigger] keeps every definition and has recorded, by the time it
    returns, one failure in front of the history of the triggered job, cut
    to the cap as ever. *)
Theorem controls_keep_records m name name' :
  recorded_part <$> getJob (pause m name).1 name'
  = recorded_part <$> getJob m name' ∧
  recorded_part <$> getJob (resume m name).1 name'
  = recorded_part <$> getJob m name' ∧
  recorded_part <$> getJob (stop m name).1 name'
  = recorded_part <$> getJob m name' ∧
  recorded_part <$> getJob (stopAll m) name'
  = recorded_part <$> getJob m name' ∧
  recorded_part <$> getJob (trigger m name Suspended).1 name'
  = recorded_part <$> getJob m name' ∧
  (∀ called, configs (trigger m name called).1 = configs m) ∧
  (∀ job errorMessage startTime endTime,
     jobs m !! name = Some job →
     history (trigger m name (ThrewAtOnce errorMessage startTime endTime)).1
       name
     = take (maxExecutionLogs m)
         ({| JobExecution.jobName := name;
             JobExecution.startTime := startTime;
             JobExecution.endTime := Some endTime;
             JobExecution.duration := Some (endTime - startTime);
             JobExecution.success := false;
             JobExecution.error := Some errorMessage;
             JobExecution.output := None |} :: history m name)).
Proof.
  split_and!; try (apply recorded_part_ext).
  - unfold pause. by destruct (jobs m !! name).
  - unfold pause. by destruct (jobs m !! name).
  - unfold resume. by destruct (jobs m !! name).
  - unfold resume. by destruct (jobs m !! name).
  - unfold stop. by destruct (jobs m !! name).
  - unfold stop. by destruct (jobs m !! name).
  - done.
  - done.
  - unfold trigger. by destruct (jobs m !! name).
  - unfold trigger. by destruct (jobs m !! name).
  - intros called. unfold trigger.
    destruct (jobs m !! name); [|done]. by destruct called.
  - intros job errorMessage startTime endTime Hjob.
    unfold trigger. rewrite Hjob. cbn [fst].
    by rewrite history_recordExecution_eq.
Qed.

(** Stopping is final for the manager: a second [stop] of the name finds no
    runtime and returns false, as does any control after [stopAll], and a
    second [stopAll] changes nothing. *)
Theorem stop_is_final m name :
  stop (stop m name).1 name = ((stop m name).1, false) ∧
  (∀ called, trigger (stopAll m) name called = (stopAll m, false)) ∧
  pause (stopAll m) name = (stopAll m, false) ∧
  resume (stopAll m) name = (stopAll m, false) ∧
  stop (stopAll m) name = (stopAll m, false) ∧
  stopAll (stopAll m) = stopAll m.
Proof.
  destruct (stop_state m name) as (Hnone & _).
  destruct (no_runtime_no_control _ _ Hnone) as (_ & _ & _ & Hstop).
  assert (jobs (stopAll m) !! name = None) as Hnone' by done.
  destruct (no_runtime_no_control _ _ Hnone') as (? & ? & ? & ?).
  by split_and!.
Qed.

(** ** Registration, once more *)

Lemma register_step_configs m config made name :
  is_Some (configs (register m config made).1 !! name) →
  is_Some (configs m !! name) ∨ name = JobConfig.name config.
Proof.
  unfold register. destruct (jobs m !! JobConfig.name config); [by left|].
  destruct (decide (name = JobConfig.name config)) as [->|Hne]; [by right|].
  intros Hc. left. revert Hc.
  destruct (is_enabled config); [unfold createJob; destruct made|];
    simpl; by rewrite lookup_insert_ne.
Qed.

(** A successful [register] followed by [getJob]: the snapshot carries the
    fields of the definition, the observations of the new runtime (none when
    the job is not enabled), an empty list of executions and statistics that
    are all zero, whatever history the name had before. *)
Theorem register_then_getJob m config made m' :
  register m config made = (m', Normal) →
  let job :=
    if is_enabled config
    then match made with inl job => Some job | inr _ => None end
    else None in
  getJob m' (JobConfig.name config)
  = Some {|
      JobInfo.name := JobConfig.name config;
      JobInfo.description := JobConfig.description config;
      JobInfo.pattern := JobConfig.pattern config;
      JobInfo.timezone := JobConfig.timezone config;
      JobInfo.enabled := is_enabled config;
      JobInfo.status := getJobStatus job;
      JobInfo.nextRun := job ≫= nextRun;
      JobInfo.previousRun := job ≫= previousRun;
      JobInfo.currentRun := job ≫= currentRun;
      JobInfo.isBusy := from_option isBusy false job;
      JobInfo.executions := [];
      JobInfo.stats := JobInfo.mkStats 0 0 0 0 |}.
Proof.
  intros (Hfree & Hconfigs & Hexec & Hjobs)%register_Normal. simpl.
  unfold getJob, history. rewrite Hconfigs, Hexec, !lookup_insert_eq. simpl.
  destruct (is_enabled config).
  - destruct Hjobs as (job & -> & ->). by rewrite lookup_insert_eq.
  - by rewrite Hjobs, Hfree.
Qed.

(** When [new Cron] throws, [register] throws with it, after the definition
    and an empty history were stored: the name is registered without a
    runtime and reports stopped, the runtimes of the manager are as before,
    and registering the name again is not refused as a duplicate. *)
Theorem register_constructor_throws m config message :
  jobs m !! JobConfig.name config = None →
  is_enabled config = true →
  let m' := (register m config (inr message)).1 in
  (register m config (inr message)).2 = Throw message ∧
  jobs m' = jobs m ∧
  (∃ info, getJob m' (JobConfig.name config) = Some info
           ∧ JobInfo.status info = stopped ∧ JobInfo.executions info = []) ∧
  (∀ job, (register m' config (inl job)).2 = Normal).
Proof.
  intros Hfree Hon m'.
  set (name := JobConfig.name config) in *.
  assert (register m config (inr message)
          = (set_executions <[name := []]>
               (set_configs <[name := config]> m), Throw message)) as Hreg
    by (unfold register; fold name; by rewrite Hfree, Hon).
  unfold m'. rewrite Hreg. cbn [fst snd]. split_and!; try done.
  - unfold getJob, history. simpl. rewrite !lookup_insert_eq, Hfree.
    eexists. by split_and!.
  - intros job. unfold register. fold name.
    cbn [jobs set_executions set_configs]. by rewrite Hfree, Hon.
Qed.

Lemma registerAll_app m before after m1 :
  registerAll m before = (m1, Normal) →
  registerAll m (before ++ after) = registerAll m1 after.
Proof.
  revert m. induction before as [|[config made] before IH]; intros m; simpl.
  - by intros [= ->].
  - destruct (register m config made) as [m0 [|message]]; [|done]. apply IH.
Qed.

Lemma registerAll_steps m l : rtc step m (registerAll m l).1.
Proof.
  revert m. induction l as [|[config made] l IH]; intros m; simpl; [done|].
  pose proof (step_register m config made) as Hstep.
  destruct (register m config made) as [m0 [|message]]; simpl in *.
  - by eapply rtc_l.
  - by apply rtc_once.
Qed.

Lemma registerAll_Normal m l m' :
  registerAll m l = (m', Normal) →
  ∀ config, config ∈ l.*1 → is_Some (configs m' !! JobConfig.name config).
Proof.
  revert m. induction l as [|[config made] l IH]; intros m; simpl.
  - intros _ config ?%elem_of_nil. done.
  - destruct (register m config made) as [m0 [|message]] eqn:Hreg; [|done].
    intros Hall config' [->|Hin]%elem_of_cons; [|by eapply IH].
    apply register_Normal in Hreg as (_ & Hconfigs & _).
    pose proof (registerAll_steps m0 l) as Hsteps. rewrite Hall in Hsteps.
    eapply steps_configs; [done|].
    by rewrite Hconfigs, lookup_insert_eq.
Qed.

Lemma registerAll_configs m l name :
  is_Some (configs (registerAll m l).1 !! name) →
  is_Some (configs m !! name) ∨ name ∈ JobConfig.name <$> l.*1.
Proof.
  revert m. induction l as [|[config made] l IH]; intros m; simpl;
    [by left|].
  pose proof (register_step_configs m config made name) as Hone.
  destruct (register m config made) as [m0 [|message]]; simpl in *.
  - intros [Hc| Hin]%IH; [|right; by right].
    destruct (Hone Hc) as [?| ->]; [by left|right; by left].
  - intros Hc. destruct (Hone Hc) as [?| ->]; [by left|right; by left].
Qed.

(** [registerAll] ends at the first configuration whose [register] throws,
    with that error.  The configurations before it stay registered, nothing
    is rolled back; those after it are not looked at, so no name of theirs
    becomes registered by the call. *)
Theorem registerAll_stops_at_first_throw m before config made after m1 m2
    message :
  registerAll m before = (m1, Normal) →
  register m1 config made = (m2, Throw message) →
  registerAll m (before ++ (config, made) :: after) = (m2, Throw message) ∧
  (∀ config', config' ∈ before.*1 →
     is_Some (getJob m2 (JobConfig.name config'))) ∧
  (∀ name, is_Some (getJob m2 name) →
     is_Some (getJob m name)
     ∨ name ∈ JobConfig.name <$> (before ++ [(config, made)]).*1).
Proof.
  intros Hbefore Hthrow.
  assert (registerAll m (before ++ (config, made) :: after)
          = (m2, Throw message)) as Hall.
  { rewrite (registerAll_app _ _ _ _ Hbefore). simpl. by rewrite Hthrow. }
  assert (registerAll m (before ++ [(config, made)]) = (m2, Throw message))
    as Hupto.
  { rewrite (registerAll_app _ _ _ _ Hbefore). simpl. by rewrite Hthrow. }
  split_and!; [done| |].
  - intros config' Hin. apply getJob_is_Some.
    eapply step_configs.
    + pose proof (step_register m1 config made) as Hstep.
      by rewrite Hthrow in Hstep.
    + by eapply registerAll_Normal.
  - intros name Hc%getJob_is_Some. rewrite getJob_is_Some.
    apply registerAll_configs. by rewrite Hupto.
Qed.

(** ** Manager statistics *)

Lemma count_status_split (l : list JobInfo.t) :
  length l
  = (count_status (λ s, bool_decide (s = running) || bool_decide (s = idle)) l
     + count_status (λ s, bool_decide (s = paused)) l
     + count_status (λ s, bool_decide (s = stopped)) l)%nat.
Proof.
  unfold count_status. induction l as [|info l IH]; [done|]. simpl.
  destruct (JobInfo.status info); simpl; lia.
Qed.

(** In [getStats] every job is counted under one heading: the running, the
    paused and the stopped jobs add up to the total. *)
Theorem status_counts_add_up m :
  totalJobs (getStats m)
  = (runningJobs (getStats m) + pausedJobs (getStats m)
     + stoppedJobs (getStats m))%nat.
Proof. unfold getStats. simpl. apply count_status_split. Qed.

Lemma step_executions_registered m m' :
  step m m' →
  (∀ name, is_Some (jobs m !! name) → is_Some (configs m !! name)) →
  executions_registered m → executions_registered m'.
Proof.
  intros Hstep Hjobs Hreg. destruct Hstep.
  - unfold register. destruct (jobs m !! JobConfig.name config); [done|].
    assert (executions_registered
              (set_executions <[JobConfig.name config := []]>
                 (set_configs <[JobConfig.name config := config]> m)))
      as Hstored.
    { intros name. simpl.
      destruct (decide (JobConfig.name config = name)) as [->|Hne].
      - by rewrite !lookup_insert_eq.
      - rewrite !lookup_insert_ne by done. apply Hreg. }
    destruct (is_enabled config); [|done].
    unfold createJob. by destruct made.
  - unfold trigger. destruct (jobs m !! name) as [job|] eqn:Hjob; [|done].
    destruct called; [done|]. intros name'. simpl.
    destruct (decide (name = name')) as [<-|Hne].
    + intros _. apply Hjobs. by rewrite Hjob.
    + rewrite lookup_insert_ne by done. apply Hreg.
  - unfold pause. by destruct (jobs m !! name).
  - unfold resume. by destruct (jobs m !! name).
  - unfold stop. by destruct (jobs m !! name).
  - done.
  - assert (∀ success error startTime endTime duration,
      executions_registered
        (recordExecution m (JobConfig.name (run_config run)) success error
           startTime endTime duration now)) as Hrec.
    { intros ????? name. simpl.
      destruct (decide (JobConfig.name (run_config run) = name)) as [<-|Hne].
      - done.
      - rewrite lookup_insert_ne by done. apply Hreg. }
    unfold wrapper_end. destruct outcome; apply Hrec.
  - intros name. unfold catch_callback. simpl.
    destruct (decide (JobConfig.name config = name)) as [<-|Hne].
    + done.
    + rewrite lookup_insert_ne by done. apply Hreg.
  - done.
Qed.

Lemma reachable_executions_registered cap m :
  reachable cap m → executions_registered m.
Proof.
  unfold reachable. revert m. apply rtc_ind_r.
  - intros name [? Hl]. simpl in Hl. by rewrite lookup_empty in Hl.
  - intros m m' Hreach Hstep IH.
    eapply step_executions_registered; [done| |done].
    by destruct (reachable_inv cap m Hreach).
Qed.

Lemma length_concat_snd {K A} (l : list (K * list A)) :
  length (concat l.*2) = sum_list_with (λ kv, length kv.2) l.
Proof.
  induction l as [|[k x] l IH]; [done|]. simpl.
  rewrite length_app. f_equal. apply IH.
Qed.

Lemma sum_list_with_ext_in {A} (f g : A → nat) (l : list A) :
  (∀ x, x ∈ l → f x = g x) → sum_list_with f l = sum_list_with g l.
Proof.
  induction l as [|x l IH]; intros Hfg; [done|]. simpl.
  rewrite (Hfg x) by left. f_equal. apply IH. intros y Hy. apply Hfg. by right.
Qed.

(** Summing a map's values is summing, over the keys of a map that has at
    least those keys, what the first map holds under each key. *)
Lemma sum_by_keys {A B} (E : gmap string (list A)) (C : gmap string B) :
  (∀ k, is_Some (E !! k) → is_Some (C !! k)) →
  sum_list_with (λ kv, length kv.2) (map_to_list E)
  = sum_list_with (λ k, length (default [] (E !! k))) (map_to_list C).*1.
Proof.
  revert E. induction C as [|i c C Hfresh IH] using map_ind; intros E Hsub.
  - assert (E = ∅) as ->.
    { apply map_eq. intros k. rewrite lookup_empty.
      destruct (E !! k) eqn:Hk; [|done].
      destruct (Hsub k) as [? Hc]; [by eexists|].
      by rewrite lookup_empty in Hc. }
    by rewrite !map_to_list_empty.
  - rewrite (map_to_list_insert C) by done. rewrite fmap_cons.
    cbn [sum_list_with fst].
    assert (sum_list_with (λ k, length (default [] (E !! k)))
              (map_to_list C).*1
            = sum_list_with (λ kv, length kv.2) (map_to_list (delete i E)))
      as ->.
    { rewrite (IH (delete i E)).
      - apply sum_list_with_ext_in.
        intros k [[k' c'] [-> Hin]]%list_elem_of_fmap.
        apply elem_of_map_to_list in Hin. simpl.
        rewrite lookup_delete_ne; [done|]. intros ->. simpl in Hin. congruence.
      - intros k. destruct (decide (i = k)) as [->|Hne].
        + rewrite lookup_delete_eq. by intros [? [=]].
        + rewrite lookup_delete_ne by done. intros Hk.
          apply Hsub in Hk. by rewrite lookup_insert_ne in Hk. }
    destruct (E !! i) as [h|] eqn:Hi.
    + rewrite <- (insert_delete_id E i h) at 1 by done.
      rewrite map_to_list_insert by apply lookup_delete_eq. done.
    + by rewrite delete_id.
Qed.

Lemma sum_totalRuns m (keys : list string) :
  (∀ k, k ∈ keys → is_Some (configs m !! k)) →
  sum_list_with (λ info, JobInfo.totalRuns (JobInfo.stats info))
    (omap (getJob m) keys)
  = sum_list_with (λ k, length (history m k)) keys.
Proof.
  induction keys as [|k keys IH]; intros Hall; [done|]. simpl.
  destruct (Hall k) as [config Hc]; [by left|].
  destruct (getJob_Some _ _ _ Hc) as (info & -> & _ & _ & _ & _ & Htot & _).
  simpl. rewrite Htot. f_equal. apply IH. intros k' Hk'. apply Hall. by right.
Qed.

Lemma sum_list_with_bound {A} (f : A → nat) (l : list A) (n : nat) :
  (∀ x, x ∈ l → (f x ≤ n)%nat) → (sum_list_with f l ≤ n * length l)%nat.
Proof.
  induction l as [|x l IH]; intros Hall; [simpl; lia|]. simpl.
  assert (f x ≤ n)%nat by (apply Hall; by left).
  assert (sum_list_with f l ≤ n * length l)%nat
    by (apply IH; intros y Hy; apply Hall; by right).
  lia.
Qed.

(** In a reachable manager the total of executions that [getStats] reports
    is the sum of the [totalRuns] of the snapshots of [getAllJobs], and it
    is at most the cap times the number of jobs. *)
Theorem totalExecutions_is_sum_of_totalRuns cap m :
  reachable cap m →
  totalExecutions (getStats m)
  = sum_list_with (λ info, JobInfo.totalRuns (JobInfo.stats info))
      (getAllJobs m) ∧
  (totalExecutions (getStats m) ≤ cap * totalJobs (getStats m))%nat.
Proof.
  intros Hreach.
  pose proof (reachable_executions_registered _ _ Hreach) as Hreg.
  destruct (reachable_inv _ _ Hreach) as [_ _ _ Hlen _].
  assert (totalExecutions (getStats m)
          = sum_list_with (λ info, JobInfo.totalRuns (JobInfo.stats info))
              (getAllJobs m)) as Hsum.
  { unfold getStats, getAllJobs. simpl. rewrite length_concat_snd.
    rewrite sum_totalRuns.
    - by apply sum_by_keys.
    - intros k [[k' c] [-> Hin]]%list_elem_of_fmap.
      apply elem_of_map_to_list in Hin. by eexists. }
  split; [done|]. rewrite Hsum. unfold getStats. simpl.
  apply sum_list_with_bound.
  intros info [name Hget]%elem_of_getAllJobs.
  destruct (configs m !! name) as [config|] eqn:Hc.
  - destruct (getJob_Some _ _ _ Hc) as (info' & Hget' & _ & _ & _ & _ & Htot & _).
    assert (info' = info) as -> by congruence. rewrite Htot. apply Hlen.
  - by rewrite getJob_None in Hget.
Qed.

(** ** The mean duration *)

Lemma totalDuration_between (lo hi : Z) (l : list JobExecution.t) :
  (∀ e, e ∈ l → lo ≤ default 0 (JobExecution.duration e) ≤ hi) →
  lo * Z.of_nat (length l) ≤ totalDuration l ≤ hi * Z.of_nat (length l).
Proof.
  unfold totalDuration. intros Hall.
  assert (∀ acc,
    acc + lo * Z.of_nat (length l)
    ≤ foldl (λ sum e, sum + default 0 (JobExecution.duration e)) acc l
    ≤ acc + hi * Z.of_nat (length l)) as Hgen.
  { induction l as [|e l IH]; intros acc; simpl; [lia|].
    assert (lo ≤ default 0 (JobExecution.duration e) ≤ hi)
      by (apply Hall; by left).
    specialize (IH (λ e' He', Hall e' (list_elem_of_further _ _ _ He'))
                  (acc + default 0 (JobExecution.duration e))).
    lia. }
  specialize (Hgen 0). lia.
Qed.

(** The mean that [getJob] reports lies between the least and the greatest
    duration of the retained records (a record without a duration counting
    as 0), the rounding notwithstanding. *)
Theorem averageDuration_between m name info (lo hi : Z) :
  getJob m name = Some info →
  history m name ≠ [] →
  (∀ e, e ∈ history m name → lo ≤ default 0 (JobExecution.duration e) ≤ hi) →
  lo ≤ JobInfo.averageDuration (JobInfo.stats info) ≤ hi.
Proof.
  intros Hget Hne Hall.
  destruct (configs m !! name) as [config|] eqn:Hc;
    [|by rewrite getJob_None in Hget].
  destruct (getJob_Some _ _ _ Hc)
    as (info' & Hget' & _ & _ & _ & _ & _ & _ & _ & Havg).
  assert (info' = info) as -> by congruence. rewrite Havg.
  pose proof (totalDuration_between lo hi _ Hall) as Htotal.
  unfold averageDuration.
  destruct (history m name) as [|e l]; [done|].
  change (0 <? length (e :: l))%nat with true. simpl negb.
  set (n := length (e :: l)) in *.
  assert (0 < n)%nat as Hn by (unfold n; simpl; lia).
  pose proof (round_div_nearest (totalDuration (e :: l)) n Hn) as Hround.
  revert Htotal Hround.
  generalize (round_div (totalDuration (e :: l)) n) as mean.
  generalize (totalDuration (e :: l)) as total.
  assert (0 < Z.of_nat n) as Hpos by lia. revert Hpos.
  generalize (Z.of_nat n) as k. clear. intros k Hpos total mean Htotal Hround.
  split.
  - destruct (Z_lt_le_dec mean lo) as [Hlt|]; [|done].
    assert (k * (lo - 1 - mean) >= 0) by nia. nia.
  - destruct (Z_lt_le_dec hi mean) as [Hlt|]; [|done].
    assert (k * (mean - hi - 1) >= 0) by nia. nia.
Qed.

(** ** The retained records *)

Lemma records_timed_recordExecution m name success error startTime endTime
    duration now :
  records_timed m →
  timed (execution_of name success error startTime endTime duration now) →
  records_timed
    (recordExecution m name success error startTime endTime duration now).
Proof.
  intros Hall Hnew name' e. destruct (decide (name = name')) as [<-|Hne].
  - rewrite history_recordExecution_eq.
    intros [->|He]%subseteq_take%elem_of_cons; [done|]. by eapply Hall.
  - rewrite history_recordExecution_ne by done. apply Hall.
Qed.

Lemma step_records_timed m m' :
  step m m' → records_timed m → records_timed m'.
Proof.
  intros Hstep Hall. destruct Hstep.
  - unfold register. destruct (jobs m !! JobConfig.name config); [done|].
    assert (records_timed
              (set_executions <[JobConfig.name config := []]>
                 (set_configs <[JobConfig.name config := config]> m)))
      as Hstored.
    { intros name e.
      destruct (decide (JobConfig.name config = name)) as [<-|Hne].
      - rewrite history_set_executions_eq. by intros ?%elem_of_nil.
      - rewrite history_set_executions_ne by done. apply Hall. }
    destruct (is_enabled config); [|done].
    unfold createJob. by destruct made.
  - unfold trigger. destruct (jobs m !! name); [|done].
    destruct called; [done|]. by apply records_timed_recordExecution.
  - unfold pause. by destruct (jobs m !! name).
  - unfold resume. by destruct (jobs m !! name).
  - unfold stop. by destruct (jobs m !! name).
  - done.
  - unfold wrapper_end.
    destruct outcome; by apply records_timed_recordExecution.
  - by apply records_timed_recordExecution.
  - done.
Qed.

Lemma reachable_records_timed cap m : reachable cap m → records_timed m.
Proof.
  unfold reachable. revert m. apply rtc_ind_r.
  - intros name e. unfold history. simpl. rewrite lookup_empty.
    by intros ?%elem_of_nil.
  - intros m m' _ Hstep IH. by eapply step_records_timed.
Qed.

(** In a reachable manager every retained record is filed under the name it
    carries, and its times fit together: it has both an end time and a
    duration, the duration being end time less start time, or it has
    neither; a record of a success always has both. *)
Theorem retained_records_timed cap m name e :
  reachable cap m →
  e ∈ history m name →
  JobExecution.jobName e = name ∧
  timed e ∧
  (JobExecution.success e = true →
   ∃ finish, JobExecution.endTime e = Some finish
     ∧ JobExecution.duration e = Some (finish - JobExecution.startTime e)).
Proof.
  intros Hreach He.
  destruct (reachable_inv _ _ Hreach) as [_ _ _ _ Hrec].
  pose proof (reachable_records_timed _ _ Hreach) as Htimed.
  specialize (Htimed _ _ He). split_and!; [by apply Hrec|done|].
  intros Hok. destruct Htimed as [_ Ht].
  destruct (JobExecution.endTime e) as [finish|],
    (JobExecution.duration e) as [took|]; try done.
  - exists finish. by rewrite Ht.
  - congruence.
Qed.

End Registry.

(** * Properties of the security module *)

Section SecurityProperties.
Context `{Platform}.

(** ** Job names *)

Lemma includes_char_false (c : ascii) (s : string) :
  (∀ a, a ∈ String.list_ascii_of_string s → a ≠ c) →
  includes (String c EmptyString) s = false.
Proof.
  induction s as [|a s IH]; intros Hall; [done|].
  simpl. destruct (ascii_dec c a) as [->|Hne].
  - exfalso. by apply (Hall a); [left|].
  - simpl. apply IH. intros b Hb. apply Hall. by right.
Qed.

Lemma validPattern_test_chars (name : string) (c : ascii) :
  validPattern_test name = true → validChar c = false →
  includes (String c EmptyString) name = false.
Proof.
  intros Htest Hc. apply includes_char_false. intros a Ha ->.
  destruct name as [|b name]; [done|].
  unfold validPattern_test in Htest.
  rewrite forallb_forall in Htest.
  apply list_elem_of_In, Htest in Ha. congruence.
Qed.

(** The tests of [validateJobName] in a row, the slash and the backslash of
    the last test left out: a name that passes the pattern has neither. *)
Lemma validateJobName_tests (name : string) :
  validateJobName name
  = if bool_decide (name = "") then Throw "Job name is required"
    else if negb (validPattern_test name) then
      Throw "Job name can only contain letters, numbers, dashes, underscores, and dots"
    else if (100 <? String.length name)%nat then
      Throw "Job name must be 100 characters or less"
    else if includes ".." name then Throw "Job name contains invalid characters"
    else Normal.
Proof.
  destruct name as [|c name]; [done|].
  set (s := String c name).
  change (validateJobName s)
    with (if negb (validPattern_test s) then
            Throw "Job name can only contain letters, numbers, dashes, underscores, and dots"
          else if (100 <? String.length s)%nat then
            Throw "Job name must be 100 characters or less"
          else if includes ".." s || includes "/" s || includes "\" s
          then Throw "Job name contains invalid characters"
          else Normal).
  rewrite bool_decide_eq_false_2 by done.
  destruct (validPattern_test s) eqn:Htest; [|done].
  rewrite (validPattern_test_chars s "/" Htest eq_refl).
  rewrite (validPattern_test_chars s "\" Htest eq_refl).
  by rewrite !orb_false_r.
Qed.

(** [validateJobName] returns exactly for the names that are not empty, are
    made of letters, digits, dashes, underscores and dots, have at most 100
    characters and hold no two dots in a row.  Such a name holds no slash
    and no backslash. *)
Theorem validateJobName_accepts (name : string) :
  (validateJobName name = Normal ↔
     name ≠ ""
     ∧ forallb validChar (String.list_ascii_of_string name) = true
     ∧ (String.length name ≤ 100)%nat
     ∧ includes ".." name = false) ∧
  (validateJobName name = Normal →
     includes "/" name = false ∧ includes "\" name = false).
Proof.
  rewrite validateJobName_tests.
  assert (name ≠ "" →
          validPattern_test name
          = forallb validChar (String.list_ascii_of_string name)) as Hpattern
    by by destruct name.
  destruct (bool_decide (name = "")) eqn:Hempty.
  { apply bool_decide_eq_true in Hempty. by split; [split; [|intros []]|]. }
  apply bool_decide_eq_false in Hempty. rewrite <- (Hpattern Hempty).
  destruct (validPattern_test name) eqn:Htest; cbn [negb];
    [|by split; [split; [|intros (_ & ? & _)]|]].
  destruct (100 <? String.length name)%nat eqn:Hlen.
  { apply Nat.ltb_lt in Hlen.
    split; [split; [done|intros (_ & _ & ? & _); lia]|done]. }
  apply Nat.ltb_ge in Hlen.
  destruct (includes ".." name) eqn:Hdots.
  { by split; [split; [|intros (_ & _ & _ & ?)]|]. }
  split; [done|]. intros _. split; by apply validPattern_test_chars.
Qed.

(** The last test of [validateJobName] is decided by the two dots alone:
    it throws its error exactly for a name that passes the pattern and the
    length test and holds two dots in a row. *)
Theorem validateJobName_traversal (name : string) :
  validateJobName name = Throw "Job name contains invalid characters" ↔
  validPattern_test name = true ∧ (String.length name ≤ 100)%nat
  ∧ includes ".." name = true.
Proof.
  rewrite validateJobName_tests.
  destruct (bool_decide (name = "")) eqn:Hempty.
  { apply bool_decide_eq_true in Hempty. subst name.
    by split; [|intros []]. }
  destruct (validPattern_test name) eqn:Htest; cbn [negb];
    [|by split; [|intros []]].
  destruct (100 <? String.length name)%nat eqn:Hlen.
  { apply Nat.ltb_lt in Hlen. split; [done|intros (_ & ? & _); lia]. }
  apply Nat.ltb_ge in Hlen.
  destruct (includes ".." name); by split; [|intros (_ & _ & ?)].
Qed.

(** ** The audit log *)

Lemma log_last (events : list AuditLogger.AuditEvent) (call : AuditLogger.Logged) :
  (length events ≤ AuditLogger.maxEvents)%nat →
  AuditLogger.log events (AuditLogger.logged_type call)
    (AuditLogger.logged_req call) (AuditLogger.logged_details call)
    (AuditLogger.logged_now call)
  = drop (length (events ++ [AuditLogger.logged_event call])
          - AuditLogger.maxEvents)
      (events ++ [AuditLogger.logged_event call]).
Proof.
  intros Hlen. unfold AuditLogger.log. fold (AuditLogger.logged_event call).
  rewrite length_app. simpl length.
  destruct (AuditLogger.maxEvents <? length events + 1)%nat eqn:Hfull.
  - apply Nat.ltb_lt in Hfull. f_equal. lia.
  - apply Nat.ltb_ge in Hfull.
    replace (length events + 1 - AuditLogger.maxEvents)%nat with 0%nat; [done|lia].
Qed.

(** The audit log is a window on what was logged: after any calls of [log]
    it holds the last 1000 events logged, oldest first, and never more. *)
Theorem audit_log_keeps_last (events : list AuditLogger.AuditEvent)
    (calls : list AuditLogger.Logged) :
  (length events ≤ AuditLogger.maxEvents)%nat →
  let all := events ++ (AuditLogger.logged_event <$> calls) in
  AuditLogger.log_all events calls
  = drop (length all - AuditLogger.maxEvents) all ∧
  (length (AuditLogger.log_all events calls) ≤ AuditLogger.maxEvents)%nat.
Proof.
  intros Hlen all.
  assert (AuditLogger.log_all events calls
          = drop (length all - AuditLogger.maxEvents) all) as Heq.
  { unfold all. clear all. revert events Hlen.
    induction calls as [|call calls IH]; intros events Hlen.
    - simpl. rewrite app_nil_r.
      replace (length events - AuditLogger.maxEvents)%nat with 0%nat; [done|lia].
    - simpl. rewrite log_last by done.
      set (one := events ++ [AuditLogger.logged_event call]).
      set (k := (length one - AuditLogger.maxEvents)%nat).
      assert (length one = S (length events)) as Hone
        by (unfold one; rewrite length_app; simpl; lia).
      rewrite IH by (rewrite length_drop; lia).
      rewrite <- drop_app_le by lia. rewrite drop_drop.
      unfold one. rewrite <- (assoc_L (++)). simpl.
      f_equal.
      change (list_fmap _ _ AuditLogger.logged_event calls)
        with (AuditLogger.logged_event <$> calls).
      generalize (AuditLogger.logged_event <$> calls) as rest. intros rest.
      rewrite length_drop, !length_app. simpl length.
      unfold k. rewrite Hone. lia. }
  split; [done|]. rewrite Heq, length_drop. lia.
Qed.

(** [getRecentEvents(limit)]: for a positive limit the last [limit] events,
    all of them when there are fewer; for the limit 0 every event of the
    log, not none; for a negative limit all but the first [-limit]. *)
Theorem getRecentEvents_limit (events : list AuditLogger.AuditEvent)
    (limit : Z) :
  (0 < limit →
     AuditLogger.getRecentEvents events limit
     = drop (length events - Z.to_nat limit) events
     ∧ length (AuditLogger.getRecentEvents events limit)
       = min (Z.to_nat limit) (length events)) ∧
  (limit = 0 → AuditLogger.getRecentEvents events limit = events) ∧
  (limit < 0 →
     AuditLogger.getRecentEvents events limit
     = drop (Z.to_nat (- limit)) events).
Proof.
  unfold AuditLogger.getRecentEvents, Array_slice. split_and!.
  - intros Hpos. destruct (- limit <? 0) eqn:Hneg; [|lia].
    assert (Z.to_nat (Z.max (Z.of_nat (length events) + - limit) 0)
            = (length events - Z.to_nat limit)%nat) as -> by lia.
    split; [done|]. rewrite length_drop. lia.
  - intros ->. change (- 0 <? 0) with false. cbn iota.
    rewrite Z.min_l; [done|lia].
  - intros Hlt. destruct (- limit <? 0) eqn:Hneg; [lia|].
    destruct (decide (- limit ≤ Z.of_nat (length events))).
    + by rewrite Z.min_l.
    + rewrite Z.min_r by lia. rewrite Nat2Z.id.
      rewrite !drop_ge; [done|lia|lia].
Qed.

Lemma Array_slice_subseteq {A} (start : Z) (l : list A) :
  Array_slice start l ⊆ l.
Proof. unfold Array_slice. apply subseteq_drop. Qed.

(** [getEventsByType] returns events of the log that have the type asked
    for, and for a positive limit at most that many. *)
Theorem getEventsByType_sound (events : list AuditLogger.AuditEvent)
    (type : AuditEventType) (limit : Z) :
  (∀ e, e ∈ AuditLogger.getEventsByType events type limit →
     e ∈ events ∧ AuditLogger.type e = type) ∧
  (0 < limit →
     (length (AuditLogger.getEventsByType events type limit)
      ≤ Z.to_nat limit)%nat).
Proof.
  unfold AuditLogger.getEventsByType. split.
  - intros e He. apply Array_slice_subseteq in He.
    apply list_elem_of_In, filter_In in He as [He Htype].
    split; [by apply list_elem_of_In|]. by apply bool_decide_eq_true in Htype.
  - intros Hpos. unfold Array_slice.
    destruct (- limit <? 0) eqn:Hneg; [|lia].
    rewrite length_drop. lia.
Qed.

(** ** The rate limiter *)

Lemma check_opens_window (requests : gmap string RateLimiter.RateLimitEntry)
    (req : Request.t) (now : Z) :
  (∀ entry, requests !! RateLimiter.getClientIP req = Some entry →
            RateLimiter.resetTime entry < now) →
  RateLimiter.check requests req now
  = (<[RateLimiter.getClientIP req :=
         {| RateLimiter.count := 1;
            RateLimiter.resetTime := now + RateLimiter.RATE_LIMIT_WINDOW |}]>
       requests, true).
Proof.
  intros Hover. unfold RateLimiter.check.
  destruct (requests !! RateLimiter.getClientIP req) as [entry|]; [|done].
  specialize (Hover entry eq_refl). apply Z.ltb_lt in Hover. by rewrite Hover.
Qed.

(** A request from an address with no entry, or with an entry whose window
    is over, is let through whatever the limit is, and opens a window of
    its own; the entries of other addresses stay as they are. *)
Theorem first_request_allowed (requests : gmap string RateLimiter.RateLimitEntry)
    (req : Request.t) (now : Z) :
  (∀ entry, requests !! RateLimiter.getClientIP req = Some entry →
            RateLimiter.resetTime entry < now) →
  let after := (RateLimiter.check requests req now).1 in
  (RateLimiter.check requests req now).2 = true ∧
  after !! RateLimiter.getClientIP req
  = Some {| RateLimiter.count := 1;
            RateLimiter.resetTime := now + RateLimiter.RATE_LIMIT_WINDOW |} ∧
  (∀ ip, ip ≠ RateLimiter.getClientIP req → after !! ip = requests !! ip).
Proof.
  intros Hover. rewrite (check_opens_window _ _ _ Hover). simpl.
  rewrite lookup_insert_eq. split_and!; try done.
  intros ip Hne. by rewrite lookup_insert_ne.
Qed.

Lemma check_all_length requests req times :
  length (RateLimiter.check_all requests req times).2 = length times.
Proof.
  revert requests. induction times as [|now times IH]; intros requests; [done|].
  simpl. destruct (RateLimiter.check requests req now) as [requests1 allowed].
  specialize (IH requests1).
  destruct (RateLimiter.check_all requests1 req times). simpl in *. lia.
Qed.

Lemma check_all_in_window requests req times (c reset : Z) :
  requests !! RateLimiter.getClientIP req
  = Some {| RateLimiter.count := c; RateLimiter.resetTime := reset |} →
  Forall (λ now, now ≤ reset) times →
  ∀ (j : nat) (allowed : bool),
    (RateLimiter.check_all requests req times).2 !! j = Some allowed →
    allowed = bool_decide (c + Z.of_nat j + 1 ≤ RATE_LIMIT_MAX).
Proof.
  revert requests c. induction times as [|now times IH];
    intros requests c Hentry Htimes j allowed; [done|].
  apply Forall_cons in Htimes as [Hnow Htimes]. simpl.
  destruct (RateLimiter.check requests req now) as [requests1 first] eqn:Hcheck.
  unfold RateLimiter.check in Hcheck. rewrite Hentry in Hcheck.
  simpl in Hcheck. destruct (reset <? now) eqn:Hover; [lia|].
  injection Hcheck as <- <-.
  specialize (IH (<[RateLimiter.getClientIP req :=
                    {| RateLimiter.count := c + 1;
                       RateLimiter.resetTime := reset |}]> requests)
                (c + 1) (lookup_insert_eq _ _ _) Htimes).
  destruct (RateLimiter.check_all _ req times) as [requests2 results].
  simpl in *. destruct j as [|j]; intros Hj; simpl in Hj.
  - injection Hj as <-. destruct (RATE_LIMIT_MAX <? c + 1) eqn:Hmax.
    + rewrite bool_decide_eq_false_2; [done|lia].
    + rewrite bool_decide_eq_true_2; [done|lia].
  - rewrite (IH _ _ Hj). apply bool_decide_ext. lia.
Qed.

Lemma count_true_bound (results : list bool) (budget : Z) (c : Z) :
  (∀ (j : nat) allowed, results !! j = Some allowed →
     allowed = bool_decide (c + Z.of_nat j + 1 ≤ budget)) →
  (length (List.filter id results) ≤ Z.to_nat (budget - c))%nat.
Proof.
  revert c. induction results as [|allowed results IH]; intros c Hall;
    [simpl; lia|].
  specialize (IH (c + 1)).
  assert (length (List.filter id results) ≤ Z.to_nat (budget - (c + 1)))%nat
    as Hrest.
  { apply IH. intros j b Hj. rewrite (Hall (S j) b Hj).
    apply bool_decide_ext. lia. }
  rewrite (Hall 0%nat allowed eq_refl). simpl.
  case_bool_decide; simpl; lia.
Qed.

(** One window, one budget.  When an address with no running window sends
    requests at [start] and at later times up to the end of the window that
    the first one opens, the first is let through, and the request at
    position [i], the first being at position 0, is let through exactly
    when [i + 1] is at most [RATE_LIMIT_MAX].  So at most [RATE_LIMIT_MAX]
    requests are let through in the window, or one if the limit is less
    than one. *)
Theorem requests_in_one_window
    (requests : gmap string RateLimiter.RateLimitEntry) (req : Request.t)
    (start : Z) (times : list Z) :
  (∀ entry, requests !! RateLimiter.getClientIP req = Some entry →
            RateLimiter.resetTime entry < start) →
  Forall (λ now, now ≤ start + RateLimiter.RATE_LIMIT_WINDOW) times →
  let results := (RateLimiter.check_all requests req (start :: times)).2 in
  length results = S (length times) ∧
  (∀ (i : nat) allowed, results !! i = Some allowed →
     allowed = bool_decide (i = 0%nat ∨ Z.of_nat i + 1 ≤ RATE_LIMIT_MAX)) ∧
  (length (List.filter id results) ≤ Z.to_nat (Z.max 1 RATE_LIMIT_MAX))%nat.
Proof.
  intros Hover Htimes results.
  pose proof (check_all_length requests req (start :: times)) as Hlen.
  fold results in Hlen. simpl in Hlen.
  unfold results in *. clear results. simpl in *.
  rewrite (check_opens_window _ _ _ Hover) in *.
  set (requests1 := <[_ := _]> requests) in *.
  pose proof (check_all_in_window requests1 req times 1 _
                (lookup_insert_eq _ _ _) Htimes) as Hrest.
  destruct (RateLimiter.check_all requests1 req times) as [requests2 results].
  simpl in *. split_and!; [done| |].
  - intros [|i] allowed Hi; simpl in Hi.
    + injection Hi as <-. rewrite bool_decide_eq_true_2; [done|by left].
    + rewrite (Hrest _ _ Hi). apply bool_decide_ext. lia.
  - pose proof (count_true_bound results RATE_LIMIT_MAX 1 Hrest). lia.
Qed.

(** [cleanup] is not seen by [check]: run at a time not after the request,
    it changes neither what [check] returns nor the entry [check] leaves for
    the address. *)
Theorem cleanup_unseen (requests : gmap string RateLimiter.RateLimitEntry)
    (req : Request.t) (cleaned now : Z) :
  cleaned ≤ now →
  let swept := RateLimiter.cleanup requests cleaned in
  (RateLimiter.check swept req now).2 = (RateLimiter.check requests req now).2 ∧
  (RateLimiter.check swept req now).1 !! RateLimiter.getClientIP req
  = (RateLimiter.check requests req now).1 !! RateLimiter.getClientIP req.
Proof.
  intros Hle swept. unfold RateLimiter.check.
  set (ip := RateLimiter.getClientIP req).
  assert (swept !! ip
          = match requests !! ip with
            | Some entry =>
                if decide (RateLimiter.resetTime entry < cleaned)
                then None else Some entry
            | None => None
            end) as Hswept.
  { unfold swept, RateLimiter.cleanup. rewrite map_lookup_filter.
    destruct (requests !! ip) as [entry|]; [|done]. simpl.
    destruct (decide (RateLimiter.resetTime entry < cleaned)).
    - rewrite option_guard_False; [done|]. simpl. intros Hn. by apply Hn.
    - rewrite option_guard_True; done. }
  rewrite Hswept.
  destruct (requests !! ip) as [entry|];
    [|by simpl; rewrite !lookup_insert_eq].
  destruct (decide (RateLimiter.resetTime entry < cleaned)) as [Hold|Hlive].
  - assert ((RateLimiter.resetTime entry <? now) = true) as ->
      by (apply Z.ltb_lt; lia).
    simpl. by rewrite !lookup_insert_eq.
  - destruct (RateLimiter.resetTime entry <? now); simpl;
      by rewrite !lookup_insert_eq.
Qed.

(** The audit log and the rate limiter take the same address from a
    request. *)
Theorem getClientIP_agree (req : Request.t) :
  AuditLogger.getClientIP req = RateLimiter.getClientIP req.
Proof.
  unfold AuditLogger.getClientIP, RateLimiter.getClientIP.
  destruct (truthy (Request.headers req !! "x-forwarded-for")); [done|].
  by destruct (truthy (Request.headers req !! "x-real-ip")).
Qed.

(** ** Authentication *)

Lemma split_cons (sep : ascii) (s : string) :
  ∃ piece pieces, split sep s = piece :: pieces.
Proof.
  induction s as [|c s (piece & pieces & IH)]; simpl; [by eexists _, _|].
  destruct (Ascii.eqb c sep); [by eexists _, _|].
  rewrite IH. by eexists _, _.
Qed.

(** No piece of [s.split(sep)] holds the separator. *)
Lemma split_pieces (sep : ascii) (s : string) :
  Forall (λ piece, includes (String sep EmptyString) piece = false)
    (split sep s).
Proof.
  induction s as [|c s IH]; simpl; [by repeat constructor|].
  destruct (Ascii.eqb c sep) eqn:Hc; [by constructor|].
  destruct (split_cons sep s) as (piece & pieces & Heq). rewrite Heq in *.
  apply Forall_cons in IH as [Hpiece Hpieces]. constructor; [|done].
  simpl. apply Ascii.eqb_neq in Hc.
  destruct (ascii_dec sep c) as [->|_]; [done|]. by rewrite Hpiece.
Qed.

Lemma split_whole (sep : ascii) (s : string) :
  includes (String sep EmptyString) s = false → split sep s = [s].
Proof.
  induction s as [|c s IH]; [done|]. simpl.
  destruct (ascii_dec sep c) as [->|Hne]; [by destruct s|].
  simpl. intros Hs. rewrite (IH Hs).
  assert (Ascii.eqb c sep = false) as -> by (apply Ascii.eqb_neq; congruence).
  done.
Qed.

Lemma split_first (sep : ascii) (s rest : string) :
  includes (String sep EmptyString) s = false →
  split sep (s +:+ String sep rest) = s :: split sep rest.
Proof.
  induction s as [|c s IH]; simpl.
  - by rewrite Ascii.eqb_refl.
  - destruct (ascii_dec sep c) as [->|Hne]; [by destruct s|].
    simpl. intros Hs. rewrite (IH Hs).
    assert (Ascii.eqb c sep = false) as ->
      by (apply Ascii.eqb_neq; congruence).
    done.
Qed.

Lemma String_slice_app (pre s : string) :
  String_slice (String.length pre) (pre +:+ s) = s.
Proof. induction pre as [|c pre IH]; [by destruct s|]. apply IH. Qed.

Lemma prefix_app (pre s : string) : String.prefix pre (pre +:+ s) = true.
Proof.
  induction pre as [|c pre IH]; [by destruct s|]. simpl.
  by destruct (ascii_dec c c).
Qed.

Lemma truthy_app (c : ascii) (pre s : string) :
  truthy (Some (String c pre +:+ s)) = Some (String c pre +:+ s).
Proof. done. Qed.

(** A request whose [Authorization] header is [Bearer] and a key passes
    [requireAuth] exactly when an API key is configured and the key is that
    one.  With no API key configured no [Bearer] header passes. *)
Theorem bearer_authentication (events : list AuditLogger.AuditEvent)
    (req : Request.t) (now : Z) (key : string) :
  Request.headers req !! "authorization" = Some ("Bearer " +:+ key) →
  (requireAuth events req now).2 = None ↔ API_KEY ≠ "" ∧ key = API_KEY.
Proof.
  intros Hheader. unfold requireAuth. rewrite Hheader.
  rewrite (truthy_app "B" "earer " key).
  rewrite (prefix_app "Bearer " key).
  destruct (decide (API_KEY = "")) as [Hnone|Hkey].
  - rewrite bool_decide_eq_false_2 by (intros Hn; by apply Hn).
    cbn [andb]. split; [done|]. by intros [? _].
  - rewrite bool_decide_eq_true_2 by done. cbn [andb].
    unfold authenticateWithAPIKey.
    change 7%nat with (String.length "Bearer ").
    rewrite (String_slice_app "Bearer " key).
    case_bool_decide; simpl; split; try done. by intros [_ ?].
Qed.

(** A request whose [Authorization] header is [Basic] and some encoded
    credentials passes [requireAuth] exactly when [atob] decodes them and
    the first two pieces of the decoded text, cut at the colons, are the
    configured user name and password.  A configured password that holds a
    colon is therefore never matched, and the user name and password joined
    by a colon are matched when neither holds one. *)
Theorem basic_authentication (events : list AuditLogger.AuditEvent)
    (req : Request.t) (now : Z) (encoded : string) :
  Request.headers req !! "authorization" = Some ("Basic " +:+ encoded) →
  ((requireAuth events req now).2 = None ↔
     ∃ credentials, atob encoded = Some credentials
       ∧ split ":" credentials !! 0%nat = Some DASHBOARD_USERNAME
       ∧ split ":" credentials !! 1%nat = Some DASHBOARD_PASSWORD) ∧
  (includes ":" DASHBOARD_PASSWORD = true →
     (requireAuth events req now).2 = Some createUnauthorizedResponse) ∧
  (includes ":" DASHBOARD_USERNAME = false →
   includes ":" DASHBOARD_PASSWORD = false →
   atob encoded = Some (DASHBOARD_USERNAME +:+ ":" +:+ DASHBOARD_PASSWORD) →
     (requireAuth events req now).2 = None).
Proof.
  intros Hheader.
  assert ((requireAuth events req now).2
          = if auth_success (authenticateWithBasic ("Basic " +:+ encoded))
            then None else Some createUnauthorizedResponse) as Hauth.
  { unfold requireAuth. rewrite Hheader.
    rewrite (truthy_app "B" "asic " encoded).
    assert (String.prefix "Bearer " ("Basic " +:+ encoded) = false) as ->
      by done.
    rewrite andb_false_r. rewrite (prefix_app "Basic " encoded).
    by destruct (auth_success _). }
  assert (auth_success (authenticateWithBasic ("Basic " +:+ encoded)) = true ↔
          ∃ credentials, atob encoded = Some credentials
            ∧ split ":" credentials !! 0%nat = Some DASHBOARD_USERNAME
            ∧ split ":" credentials !! 1%nat = Some DASHBOARD_PASSWORD)
    as Hbasic.
  { unfold authenticateWithBasic.
    change 6%nat with (String.length "Basic ").
    rewrite (String_slice_app "Basic " encoded).
    destruct (atob encoded) as [credentials|]; simpl.
    - repeat case_bool_decide; simpl; split; try done.
      + intros _. by exists credentials.
      + by intros (? & [= <-] & ? & ?).
      + by intros (? & [= <-] & ? & ?).
      + by intros (? & [= <-] & ? & ?).
    - split; [done|]. by intros (? & ? & _). }
  rewrite Hauth. split_and!.
  - rewrite <- Hbasic. by destruct (auth_success _).
  - intros Hcolon.
    destruct (auth_success _) eqn:Hok; [|done].
    destruct (proj1 Hbasic eq_refl) as (credentials & _ & _ & Hpassword).
    pose proof (split_pieces ":" credentials) as Hpieces.
    rewrite Forall_lookup in Hpieces.
    specialize (Hpieces _ _ Hpassword). simpl in Hpieces. congruence.
  - intros Huser Hpass Hdecoded.
    assert (auth_success (authenticateWithBasic ("Basic " +:+ encoded)) = true)
      as ->; [|done].
    apply Hbasic.
    exists (DASHBOARD_USERNAME +:+ String ":" DASHBOARD_PASSWORD).
    split; [exact Hdecoded|].
    rewrite (split_first ":" _ _ Huser), (split_whole ":" _ Hpass). done.
Qed.

Lemma requireAuth_answers (events : list AuditLogger.AuditEvent)
    (req : Request.t) (now : Z) :
  (requireAuth events req now).2 = None
  ∨ (requireAuth events req now).2 = Some createUnauthorizedResponse.
Proof.
  unfold requireAuth.
  destruct (truthy (Request.headers req !! "authorization")) as [authHeader|];
    [|by right].
  destruct (bool_decide (API_KEY ≠ "") && String.prefix "Bearer " authHeader).
  - destruct (auth_success (authenticateWithAPIKey authHeader)); simpl; auto.
  - destruct (String.prefix "Basic " authHeader); [|by right].
    destruct (auth_success (authenticateWithBasic authHeader)); simpl; auto.
Qed.

(** [requireAuth] answers with the 401 response or lets the request pass,
    nothing else.  It writes at most one audit event: [AUTH_SUCCESS] when the
    request passes, [AUTH_FAILURE] or nothing when it does not, and nothing
    when the header is missing or empty. *)
Theorem requireAuth_outcome (events : list AuditLogger.AuditEvent)
    (req : Request.t) (now : Z) :
  let result := requireAuth events req now in
  (result.2 = None ∨ result.2 = Some createUnauthorizedResponse) ∧
  (result.2 = None →
     ∃ details, result.1 = AuditLogger.log events AUTH_SUCCESS req details now) ∧
  (result.2 ≠ None →
     result.1 = events
     ∨ ∃ details, result.1 = AuditLogger.log events AUTH_FAILURE req details now) ∧
  (truthy (Request.headers req !! "authorization") = None →
     result = (events, Some createUnauthorizedResponse)).
Proof.
  unfold requireAuth.
  destruct (truthy (Request.headers req !! "authorization")) as [authHeader|];
    [|by split_and!; [right| | left|]].
  destruct (bool_decide (API_KEY ≠ "") && String.prefix "Bearer " authHeader).
  - destruct (auth_success (authenticateWithAPIKey authHeader)); simpl.
    + split_and!; [by left|by eexists|done|done].
    + split_and!; [by right|done|right; by eexists|done].
  - destruct (String.prefix "Basic " authHeader).
    + destruct (auth_success (authenticateWithBasic authHeader)); simpl.
      * split_and!; [by left|by eexists|done|done].
      * split_and!; [by right|done|right; by eexists|done].
    + simpl. split_and!; [by right|done|by left|done].
Qed.

(** ** HTTPS *)

Lemma requireHTTPS_quiet (events : list AuditLogger.AuditEvent)
    (req : Request.t) (now : Z) :
  (requireHTTPS events req now).2 = None →
  (requireHTTPS events req now).1 = events.
Proof.
  unfold requireHTTPS. destruct REQUIRE_HTTPS; [|done]. simpl.
  by case_bool_decide.
Qed.

Lemma requireHTTPS_status (events : list AuditLogger.AuditEvent)
    (req : Request.t) (now : Z) (refused : Response.t) :
  (requireHTTPS events req now).2 = Some refused →
  Response.status refused = 403%nat.
Proof.
  unfold requireHTTPS. destruct REQUIRE_HTTPS; [|done]. simpl.
  case_bool_decide; [done|]. simpl. by intros [= <-].
Qed.

(** [requireHTTPS] lets a request pass exactly when HTTPS is not required or
    the protocol it goes by is the text [https:], the colon included; the
    protocol is the [x-forwarded-proto] header when that is present and not
    empty, the one of the URL otherwise.  A forwarded protocol [https],
    without the colon, is refused even for an [https:] URL.  A request that
    passes writes no audit event. *)
Theorem requireHTTPS_passes (events : list AuditLogger.AuditEvent)
    (req : Request.t) (now : Z) :
  let protocol :=
    default (URL.protocol (Request.url req))
      (truthy (Request.headers req !! "x-forwarded-proto")) in
  ((requireHTTPS events req now).2 = None ↔
     REQUIRE_HTTPS = false ∨ protocol = "https:") ∧
  ((requireHTTPS events req now).2 = None →
     (requireHTTPS events req now).1 = events) ∧
  (REQUIRE_HTTPS = true →
   Request.headers req !! "x-forwarded-proto" = Some "https" →
     Response.status <$> (requireHTTPS events req now).2 = Some 403%nat).
Proof.
  unfold requireHTTPS. simpl.
  destruct REQUIRE_HTTPS; simpl.
  - split_and!.
    + case_bool_decide; simpl; split; try done; [by right|by intros [|]].
    + by case_bool_decide.
    + intros _ ->. done.
  - split_and!; [split; [by left|done]|done|done].
Qed.

(** ** The middleware chain *)

(** [applySecurityMiddleware] ends at the first middleware that answers:
    when the ones before it pass and it answers, its answer is the result
    and the middlewares after it are not run. *)
Theorem applySecurityMiddleware_first (security : Security)
    (before after : list SecurityMiddleware) (middleware : SecurityMiddleware)
    (security1 security2 : Security) (response : Response.t) :
  applySecurityMiddleware security before = (security1, None) →
  middleware security1 = (security2, Some response) →
  applySecurityMiddleware security (before ++ middleware :: after)
  = (security2, Some response).
Proof.
  revert security. induction before as [|first before IH]; intros security.
  - simpl. intros [= ->] ->. done.
  - simpl. destruct (first security) as [security0 [refused|]]; [done|].
    apply IH.
Qed.

(** ** Error responses *)

(** Called as the routes call it, [createErrorResponse] tells nothing of an
    error that is not a [ValidationError]: the response is the same 500 for
    all of them.  With details asked for, the same holds outside of
    development. *)
Theorem createErrorResponse_hides (error : Thrown) (includeDetails : bool) :
  (∀ message, error ≠ ValidationError message) →
  includeDetails = false ∨ process_env "NODE_ENV" ≠ Some "development" →
  createErrorResponse error includeDetails
  = {| Response.status := 500; Response.statusText := "";
       Response.headers := json_headers;
       Response.body :=
         [("error", JsonString "ServerError");
          ("message", JsonString "Internal server error")] |}.
Proof.
  intros Hother Hquiet. unfold createErrorResponse.
  assert (includeDetails
          && bool_decide (process_env "NODE_ENV" = Some "development") = false)
    as ->.
  { destruct Hquiet as [->|Hne]; [done|].
    rewrite bool_decide_eq_false_2 by done. apply andb_false_r. }
  destruct error as [message| |]; [|done..]. by destruct (Hother message).
Qed.

(** ** Startup *)

(** [validateSecurityConfig] ends the process exactly when [NODE_ENV] is
    [production] and the password is empty, one of the two placeholder
    passwords, or shorter than 8 characters.  Outside of production it
    collects no error and never ends the process; a weak password then
    gives one warning. *)
Theorem validateSecurityConfig_exits :
  let production := process_env "NODE_ENV" = Some "production" in
  let weak :=
    DASHBOARD_PASSWORD = "" ∨ DASHBOARD_PASSWORD = "change-this-password"
    ∨ DASHBOARD_PASSWORD = "change-this-password-to-something-secure"
    ∨ (String.length DASHBOARD_PASSWORD < 8)%nat in
  (exits validateSecurityConfig = true ↔ production ∧ weak) ∧
  (¬ production →
     errors validateSecurityConfig = []
     ∧ exits validateSecurityConfig = false
     ∧ (weak → length (warnings validateSecurityConfig) = 1%nat)
     ∧ (¬ weak → warnings validateSecurityConfig = [])) ∧
  (production → ¬ weak →
     errors validateSecurityConfig = []
     ∧ length (warnings validateSecurityConfig)
       = if REQUIRE_HTTPS then 0%nat else 1%nat).
Proof.
  intros production weak. subst production weak.
  unfold validateSecurityConfig.
  set (weakb := _ || _ || _ || _).
  assert (weakb = true ↔
          DASHBOARD_PASSWORD = "" ∨ DASHBOARD_PASSWORD = "change-this-password"
          ∨ DASHBOARD_PASSWORD = "change-this-password-to-something-secure"
          ∨ (String.length DASHBOARD_PASSWORD < 8)%nat) as Hweak.
  { unfold weakb. rewrite !orb_true_iff, !bool_decide_eq_true, Nat.ltb_lt.
    tauto. }
  destruct (bool_decide (process_env "NODE_ENV" = Some "production"))
    eqn:Hprod.
  - apply bool_decide_eq_true in Hprod.
    destruct weakb; simpl.
    + split_and!; [rewrite <- Hweak; tauto|tauto|].
      intros _ Hstrong. exfalso. apply Hstrong, Hweak. done.
    + split_and!.
      * split; [done|]. intros [_ Hw]. apply Hweak in Hw. done.
      * tauto.
      * intros _ _. split; [done|]. by destruct REQUIRE_HTTPS.
  - apply bool_decide_eq_false in Hprod.
    destruct weakb; simpl.
    + split_and!; [split; [done|tauto]| |tauto].
      intros _. split_and!; try done. intros Hstrong. exfalso.
      apply Hstrong, Hweak. done.
    + split_and!; [split; [done|tauto]| |tauto].
      intros _. split_and!; try done. intros Hw. apply Hweak in Hw. done.
Qed.

(** ** Security headers *)

Lemma addSecurityHeaders_enabled (response : Response.t) :
  ENABLE_SECURITY_HEADERS = true →
  addSecurityHeaders response
  = {| Response.status := Response.status response;
       Response.statusText := Response.statusText response;
       Response.headers :=
         (if from_option (includes "application/json") false
               (Response.headers response !! "content-type")
          then λ headers,
            <[ "pragma" := "no-cache" ]>
              (<[ "cache-control" :=
                    "no-store, no-cache, must-revalidate, private" ]> headers)
          else id)
           (<[ "content-security-policy" :=
                 "default-src 'self'; script-src 'self' 'unsafe-inline'; style-src 'self' 'unsafe-inline'; img-src 'self' data:; font-src 'self' data:;" ]>
              (<[ "referrer-policy" := "strict-origin-when-cross-origin" ]>
                 (<[ "x-xss-protection" := "1; mode=block" ]>
                    (<[ "x-content-type-options" := "nosniff" ]>
                       (<[ "x-frame-options" := "DENY" ]>
                          (Response.headers response))))));
       Response.body := Response.body response |}.
Proof.
  intros Hon. unfold addSecurityHeaders. rewrite Hon. cbn [negb].
  destruct (Response.headers response !! "content-type") as [contentType|];
    [|done].
  simpl. by destruct (includes "application/json" contentType).
Qed.

Lemma addSecurityHeaders_status (response : Response.t) :
  Response.status (addSecurityHeaders response) = Response.status response.
Proof.
  destruct ENABLE_SECURITY_HEADERS eqn:Hon.
  - by rewrite addSecurityHeaders_enabled.
  - unfold addSecurityHeaders. by rewrite Hon.
Qed.

(** [addSecurityHeaders] keeps the status, the body and every header the
    response has, the content type with its value; and applying it a second
    time changes nothing. *)
Theorem addSecurityHeaders_keeps (response : Response.t) :
  Response.status (addSecurityHeaders response) = Response.status response ∧
  Response.body (addSecurityHeaders response) = Response.body response ∧
  (∀ name, is_Some (Response.headers response !! name) →
     is_Some (Response.headers (addSecurityHeaders response) !! name)) ∧
  Response.headers (addSecurityHeaders response) !! "content-type"
  = Response.headers response !! "content-type" ∧
  addSecurityHeaders (addSecurityHeaders response)
  = addSecurityHeaders response.
Proof.
  destruct ENABLE_SECURITY_HEADERS eqn:Hon;
    [|unfold addSecurityHeaders; rewrite Hon; done].
  assert (Response.headers (addSecurityHeaders response) !! "content-type"
          = Response.headers response !! "content-type") as Htype.
  { rewrite addSecurityHeaders_enabled by done. simpl.
    destruct (from_option _ _ _); simpl; by rewrite !lookup_insert_ne. }
  split_and!; try done.
  - by rewrite addSecurityHeaders_enabled.
  - by rewrite addSecurityHeaders_enabled.
  - intros name Hsome. rewrite addSecurityHeaders_enabled by done. simpl.
    destruct (from_option _ _ _); simpl;
      repeat (rewrite lookup_insert; case_decide; [done|]); done.
  - rewrite (addSecurityHeaders_enabled (addSecurityHeaders response)) by done.
    rewrite Htype.
    rewrite (addSecurityHeaders_enabled response) by done. simpl.
    f_equal. apply map_eq. intros name.
    destruct (from_option _ _ _); simpl;
      rewrite !lookup_insert; repeat case_decide; congruence.
Qed.

End SecurityProperties.

(** * Properties of the routes *)

Section RouteProperties.
Context `{Croner} `{Platform}.

(** What the chain [requireHTTPS, requireRateLimit, requireAuth] comes to,
    by the answers of its three tests. *)
Lemma protected_cases (security : Security) (req : Request.t) (t : Readings) :
  let https := requireHTTPS (events security) req (at_https t) in
  let limit := RateLimiter.check (requests security) req (at_check t) in
  let auth := requireAuth (events security) req (at_auth t) in
  let result := applySecurityMiddleware security (protected req t) in
  match https.2 with
  | Some refused =>
      result = ({| events := https.1; requests := requests security |},
                Some refused)
  | None =>
      if limit.2 then
        result = ({| events := auth.1; requests := limit.1 |}, auth.2)
      else
        result.1
        = {| events :=
               AuditLogger.log (events security) RATE_LIMIT_EXCEEDED req None
                 (at_limit_log t);
             requests := limit.1 |}
        ∧ Response.status <$> result.2 = Some 429%nat
  end.
Proof.
  intros https limit auth result. subst https limit auth result.
  pose proof (requireHTTPS_quiet (events security) req (at_https t)) as Hquiet.
  unfold protected, applySecurityMiddleware, on_events, requireRateLimit.
  destruct (requireHTTPS (events security) req (at_https t))
    as [events1 [refused|]];
    cbn -[RateLimiter.check requireAuth AuditLogger.log pretty String.append] in *;
    [done|].
  rewrite (Hquiet eq_refl).
  destruct (RateLimiter.check (requests security) req (at_check t))
    as [requests1 [|]];
    cbn -[RateLimiter.check requireAuth AuditLogger.log pretty String.append];
    [|done].
  by destruct (requireAuth (events security) req (at_auth t))
    as [events2 [refused|]].
Qed.

(** The order of the chain [requireHTTPS, requireRateLimit, requireAuth].
    A request refused for its protocol is not counted by the rate limiter.
    A request over the limit gets the 429 response and is not authenticated:
    the one audit event is [RATE_LIMIT_EXCEEDED].  A request that reaches
    authentication has been counted, whether it then passes or not. *)
Theorem protected_order (security : Security) (req : Request.t)
    (t : Readings) :
  let https := requireHTTPS (events security) req (at_https t) in
  let limit := RateLimiter.check (requests security) req (at_check t) in
  let auth := requireAuth (events security) req (at_auth t) in
  let result := applySecurityMiddleware security (protected req t) in
  (https.2 ≠ None →
     result.2 = https.2 ∧ events result.1 = https.1
     ∧ requests result.1 = requests security) ∧
  (https.2 = None → limit.2 = false →
     Response.status <$> result.2 = Some 429%nat
     ∧ events result.1
       = AuditLogger.log (events security) RATE_LIMIT_EXCEEDED req None
           (at_limit_log t)
     ∧ requests result.1 = limit.1) ∧
  (https.2 = None → limit.2 = true →
     result.2 = auth.2 ∧ events result.1 = auth.1
     ∧ requests result.1 = limit.1).
Proof.
  intros https limit auth result.
  pose proof (protected_cases security req t) as Hcases.
  cbv zeta in Hcases. fold https limit auth result in Hcases.
  destruct https.2 as [refused|].
  - rewrite Hcases. split_and!; done.
  - destruct limit.2.
    + rewrite Hcases. split_and!; done.
    + destruct Hcases as [-> ->]. split_and!; done.
Qed.

Lemma protected_refusal (security security' : Security) (req : Request.t)
    (t : Readings) (refused : Response.t) :
  applySecurityMiddleware security (protected req t)
  = (security', Some refused) →
  Response.status refused = 403%nat ∨ Response.status refused = 429%nat
  ∨ Response.status refused = 401%nat.
Proof.
  intros Hchain. pose proof (protected_cases security req t) as Hcases.
  cbv zeta in Hcases. rewrite Hchain in Hcases.
  destruct (requireHTTPS (events security) req (at_https t)).2
    as [response|] eqn:Hhttps.
  - injection Hcases as _ ->. left. by eapply requireHTTPS_status.
  - destruct (RateLimiter.check (requests security) req (at_check t)).2.
    + injection Hcases as _ Hauth.
      destruct (requireAuth_answers (events security) req (at_auth t))
        as [Hpass|Hrefuse]; [congruence|].
      rewrite Hrefuse in Hauth. injection Hauth as ->. by right; right.
    + destruct Hcases as [_ [= Hstatus]]. by right; left.
Qed.

(** A route that controls a job answers 200 exactly when the request passes
    the security chain, the name in the path passes [validateJobName] and
    the manager method returns true.  Unless the chain is passed and the
    name is valid, the manager is left as it was; a refusal of the chain
    answers 403, 429 or 401, a refused name 400, and a method that returns
    false 404. *)
Theorem control_route_status
    (method : CronManager → string → CronManager * bool)
    (eventType : AuditEventType) (succeeded failed : string)
    (server : Server) (req : Request.t) (t : Readings) :
  let result :=
    control_route method eventType succeeded failed server req t in
  let passed :=
    (applySecurityMiddleware (security server) (protected req t)).2 = None in
  let valid := validateJobName (Request.params_name req) = Normal in
  let called := method (manager server) (Request.params_name req) in
  (Response.status result.2 = 200%nat ↔ passed ∧ valid ∧ called.2 = true) ∧
  (passed → valid →
     manager result.1 = called.1
     ∧ Response.status result.2 = if called.2 then 200%nat else 404%nat) ∧
  (¬ (passed ∧ valid) → manager result.1 = manager server) ∧
  (passed → ¬ valid → Response.status result.2 = 400%nat) ∧
  (¬ passed →
     Response.status result.2 = 403%nat ∨ Response.status result.2 = 429%nat
     ∨ Response.status result.2 = 401%nat).
Proof.
  intros result passed valid called. subst result passed valid called.
  unfold control_route.
  destruct (applySecurityMiddleware (security server) (protected req t))
    as [security' [refused|]] eqn:Hchain; simpl.
  - pose proof (protected_refusal _ _ _ _ _ Hchain) as Hrefusal.
    rewrite addSecurityHeaders_status.
    split_and!; try done.
    split; [|by intros [? _]]. intros H200. rewrite H200 in Hrefusal.
    by destruct Hrefusal as [|[|]].
  - destruct (validateJobName (Request.params_name req)) as [|message];
      simpl.
    + destruct (method (manager server) (Request.params_name req))
        as [manager' success]. simpl.
      rewrite addSecurityHeaders_status. simpl.
      destruct success; split_and!; try done.
      * by intros [].
      * split; [done|]. by intros (_ & _ & ?).
      * by intros [].
    + rewrite addSecurityHeaders_status. simpl.
      split_and!; try done. split; [done|]. by intros (_ & ? & _).
Qed.

End RouteProperties.

(** * The manager at work *)

Import SpecRuntime.

Lemma reachable_manager_x cap : reachable cap (manager_x cap).
Proof. apply rtc_once, step_register. Qed.

(** Cap 3, five executions: the three newest stay, newest first. *)
Lemma history_capped_witness :
  reachable 3 (manager_x 3) ∧ (3 < length five_runs)%nat ∧
  history (record_all (manager_x 3) "x" five_runs) "x"
  = recorded_execution "x" <$>
      [ok_run 5000 6; ok_run 4000 4; failed_run 3000 2 "boom"].
Proof.
  assert (reachable 3 (manager_x 3)) as Hreach
    by apply rtc_once, step_register.
  assert (3 < length five_runs)%nat as Hlt by (simpl; lia).
  split_and!; [done..|].
  destruct (history_capped 3 (manager_x 3) "x" five_runs Hreach Hlt)
    as (_ & _ & Hhist & _).
  rewrite Hhist. reflexivity.
Defined.

(** C1: the stopped job is still found. *)
Lemma stop_then_getJob_found :
  reachable 100 (manager_x 100) ∧
  is_Some (configs (manager_x 100) !! "x") ∧
  (stop (manager_x 100) "x").2 = true ∧
  getJob (stop (manager_x 100) "x").1 "x" ≠ None.
Proof.
  split_and!.
  - apply reachable_manager_x.
  - by eexists.
  - reflexivity.
  - vm_compute. discriminate.
Qed.

(** The job of [manager_x], stopped: its snapshot reports stopped. *)
Lemma stop_keeps_definition_witness :
  configs (manager_x 100) !! "x" = Some job_x ∧
  ∃ info, getJob (stop (manager_x 100) "x").1 "x" = Some info
          ∧ JobInfo.status info = stopped.
Proof.
  assert (configs (manager_x 100) !! "x" = Some job_x) as Hc by reflexivity.
  split; [done|].
  destruct (stop_keeps_definition (manager_x 100) "x" job_x Hc)
    as (_ & info & Hget & _ & Hst & _).
  by exists info.
Defined.

(** C2: the code at the failing input.  A second [register] under the name
    of a job that was registered with [enabled] false returns normally and
    replaces the stored definition; a [register] under the name of a job
    that ran and was stopped returns normally and empties its history. *)
Theorem register_over_registered_name :
  (is_Some (getJob manager_disabled_x "x") ∧
   configs manager_disabled_x !! "x" = Some disabled_x ∧
   (register manager_disabled_x second_x (inl fresh)).2 = Normal ∧
   configs (register manager_disabled_x second_x (inl fresh)).1 !! "x"
   = Some second_x ∧
   second_x ≠ disabled_x) ∧
  (let m := (stop manager_x_ran "x").1 in
   is_Some (getJob m "x") ∧
   length (history m "x") = 1%nat ∧
   (register m job_x (inl fresh)).2 = Normal ∧
   history (register m job_x (inl fresh)).1 "x" = []).
Proof.
  split; split_and!; try reflexivity.
  - by eexists.
  - intros [=].
  - by eexists.
Qed.

(** An enabled job on a fresh runtime reports idle. *)
Lemma status_after_register_witness :
  register (constructor 100) job_x (inl fresh) = (manager_x 100, Normal) ∧
  ∃ info, getJob (manager_x 100) "x" = Some info ∧ JobInfo.status info = idle.
Proof.
  assert (register (constructor 100) job_x (inl fresh)
          = (manager_x 100, Normal)) as Hreg by reflexivity.
  split; [done|].
  destruct (status_after_register _ _ _ _ Hreg)
    as (info & Hget & _ & Hon & _).
  exists info. split; [done|].
  destruct (Hon eq_refl) as (job & [= <-] & _ & Hidle).
  by apply Hidle.
Defined.

(** C4: registered with [enabled] false, the job reports stopped. *)
Lemma disabled_job_reports_stopped :
  register (constructor 100) disabled_x (inl fresh)
  = (manager_disabled_x, Normal) ∧
  JobInfo.status <$> getJob manager_disabled_x "x" = Some stopped ∧
  JobInfo.status <$> getJob manager_disabled_x "x" ≠ Some paused.
Proof. split_and!; [reflexivity..|]. vm_compute. discriminate. Qed.

(** C5: after [stopAll] the job is still listed and counted. *)
Lemma stopAll_then_job_listed :
  reachable 100 (manager_x 100) ∧
  JobInfo.name <$> getAllJobs (stopAll (manager_x 100)) = ["x"] ∧
  getAllJobs (stopAll (manager_x 100)) ≠ [] ∧
  totalJobs (getStats (stopAll (manager_x 100))) = 1%nat.
Proof.
  split_and!; [apply reachable_manager_x|reflexivity| |reflexivity].
  vm_compute. discriminate.
Qed.

(** One registered job, counted as stopped after [stopAll]. *)
Lemma stopAll_keeps_definitions_witness :
  stoppedJobs (getStats (stopAll (manager_x 100))) = 1%nat.
Proof.
  destruct (stopAll_keeps_definitions (manager_x 100))
    as (_ & _ & _ & _ & _ & _ & Hstopped & _).
  rewrite Hstopped. reflexivity.
Defined.

(** C6: pausing a job that is paused already returns true, though the
    runtime reports that the transition does not apply; so does triggering
    it. *)
Lemma pause_of_paused_job_returns_true :
  let m := (pause (manager_x 100) "x").1 in
  JobInfo.status <$> getJob m "x" = Some paused ∧
  (λ job, (Cron_pause job).2) <$> jobs m !! "x" = Some false ∧
  (pause m "x").2 = true ∧
  (∀ called, (trigger m "x" called).2 = true).
Proof. by split_and!. Qed.

(** C8: when a run has started, the history has no record of it. *)
Lemma wrapper_begin_records_nothing :
  let m := (wrapper_begin (manager_x 100) job_x 1000).1 in
  history m "x" = [] ∧
  ¬ ∃ e, e ∈ history m "x" ∧ JobExecution.startTime e = 1000
         ∧ JobExecution.endTime e = None ∧ JobExecution.duration e = None.
Proof.
  assert (history (wrapper_begin (manager_x 100) job_x 1000).1 "x" = [])
    as Hnil by reflexivity.
  split; [done|]. intros (e & He & _). rewrite Hnil in He.
  by apply elem_of_nil in He.
Qed.

(** A run from 1000 to 1005 that resolved leaves one final record. *)
Lemma wrapper_records_on_completion_witness :
  reachable 100 (manager_x 100) ∧
  history manager_x_ran "x"
  = [JobExecution.mk "x" 1000 (Some 1005) (Some 5) true None None].
Proof.
  split; [apply reachable_manager_x|].
  destruct (wrapper_records_on_completion 100 (manager_x 100) (manager_x 100)
              job_x 1000 Resolved 1005 (reachable_manager_x 100))
    as (_ & Hhist & _).
  etrans; [exact Hhist|reflexivity].
Defined.

(** Twelve runs recorded: ten are returned, the statistics count twelve. *)
Lemma getJob_snapshot_witness :
  ∃ info, getJob (record_all (manager_x 100) "x" twelve_runs) "x" = Some info
    ∧ length (JobInfo.executions info) = 10%nat
    ∧ JobExecution.startTime <$> JobInfo.executions info
      = [12000; 11000; 10000; 9000; 8000; 7000; 6000; 5000; 4000; 3000]
    ∧ JobInfo.stats info = JobInfo.mkStats 12 12 0 65.
Proof.
  pose proof (getJob_snapshot (record_all (manager_x 100) "x" twelve_runs) "x")
    as Hsnap.
  change (configs (record_all (manager_x 100) "x" twelve_runs) !! "x")
    with (Some job_x) in Hsnap.
  destruct Hsnap as (info & Hget & _).
  exists info. split; [done|].
  vm_compute in Hget. injection Hget as <-. by split_and!.
Defined.

(** Five runs: four successes and one failure. *)
Lemma stats_consistent_witness :
  totalExecutions (getStats (record_all (manager_x 100) "x" five_runs))
  = (4 + 1)%nat.
Proof.
  destruct (stats_consistent (record_all (manager_x 100) "x" five_runs))
    as [_ Hsum].
  rewrite Hsum. reflexivity.
Defined.

(** Job x registered with [enabled] false in a new manager; job x of
    [manager_x] stopped. *)
Lemma control_without_runtime_witness :
  let m1 := manager_disabled_x in
  let m2 := (stop (manager_x 100) "x").1 in
  (JobConfig.enabled disabled_x = Some false ∧
   register (constructor 100) disabled_x (inl fresh) = (m1, Normal) ∧
   trigger m1 "x" Suspended = (m1, false) ∧
   pause m1 "x" = (m1, false) ∧
   resume m1 "x" = (m1, false) ∧
   is_Some (getJob m1 "x")) ∧
  (reachable 100 (manager_x 100) ∧
   stop (manager_x 100) "x" = (m2, true) ∧
   trigger m2 "x" Suspended = (m2, false) ∧
   resume m2 "x" = (m2, false)).
Proof.
  intros m1 m2.
  destruct control_without_runtime as [Hdisabled Hstopped].
  assert (register (constructor 100) disabled_x (inl fresh) = (m1, Normal))
    as Hreg by reflexivity.
  assert (stop (manager_x 100) "x" = (m2, true)) as Hstop by reflexivity.
  destruct (Hdisabled (constructor 100) disabled_x (inl fresh) m1
              eq_refl Hreg) as (Htrigger & Hpause & Hresume & info & Hget & _).
  destruct (Hstopped 100%nat (manager_x 100) "x" m2
              (reachable_manager_x 100) Hstop)
    as (Htrigger' & _ & Hresume' & _).
  split.
  - split_and!;
      [reflexivity|exact Hreg|apply Htrigger|exact Hpause|exact Hresume|].
    by exists info.
  - split_and!;
      [apply reachable_manager_x|exact Hstop|apply Htrigger'|exact Hresume'].
Defined.

(** * The further properties at work *)

Import Deployment.

Lemma reachable_manager_x_ran : reachable 100 manager_x_ran.
Proof.
  eapply rtc_r; [apply reachable_manager_x|].
  apply step_wrapper_end. by eexists.
Qed.

(** Stopping job x leaves the snapshot of job y as it was. *)
Lemma other_jobs_untouched_witness :
  "x" ≠ "y" ∧ getJob (stop manager_xy "x").1 "y" = getJob manager_xy "y".
Proof.
  assert ("x" ≠ "y") as Hne by discriminate.
  split; [done|].
  by destruct (other_jobs_untouched manager_xy "x" "y" Hne)
    as (_ & _ & _ & _ & _ & _ & Hstop).
Defined.

(** After [stopAll] job x is still found. *)
Lemma registered_for_good_witness :
  is_Some (getJob (stopAll (manager_x 100)) "x").
Proof.
  assert (rtc step (manager_x 100) (stopAll (manager_x 100))) as Hsteps
    by apply rtc_once, step_stopAll.
  assert (is_Some (getJob (manager_x 100) "x")) as Hfound by by eexists.
  by destruct (registered_for_good _ _ "x" Hsteps Hfound).
Defined.

(** The snapshot of job x right after its registration. *)
Lemma register_then_getJob_witness :
  register (constructor 100) job_x (inl fresh) = (manager_x 100, Normal) ∧
  JobInfo.stats <$> getJob (manager_x 100) "x"
  = Some (JobInfo.mkStats 0 0 0 0).
Proof.
  assert (register (constructor 100) job_x (inl fresh)
          = (manager_x 100, Normal)) as Hreg by reflexivity.
  split; [done|].
  pose proof (register_then_getJob _ _ _ _ Hreg) as Hget.
  simpl in Hget. change (JobConfig.name job_x) with "x" in Hget.
  by rewrite Hget.
Defined.

(** A malformed pattern: the constructor throws, job x is registered. *)
Lemma register_constructor_throws_witness :
  (register (constructor 100) job_x (inr "bad pattern")).2
  = Throw "bad pattern" ∧
  is_Some (getJob (register (constructor 100) job_x (inr "bad pattern")).1 "x").
Proof.
  destruct (register_constructor_throws (constructor 100) job_x "bad pattern"
              eq_refl eq_refl) as (Hthrow & _ & (info & Hget & _) & _).
  split; [done|]. by exists info.
Defined.

(** Job x, job x again, job y: the call ends at the second, job y is not
    registered. *)
Lemma registerAll_stops_at_first_throw_witness :
  registerAll (constructor 100)
    [(job_x, inl fresh); (job_x, inl fresh); (job_y, inl fresh)]
  = (manager_x 100, Throw (already_exists "x")) ∧
  getJob (manager_x 100) "y" = None.
Proof.
  assert (registerAll (constructor 100) [(job_x, inl fresh)]
          = (manager_x 100, Normal)) as Hbefore by reflexivity.
  assert (register (manager_x 100) job_x (inl fresh)
          = (manager_x 100, Throw (already_exists "x"))) as Hthrow
    by reflexivity.
  destruct (registerAll_stops_at_first_throw (constructor 100)
              [(job_x, inl fresh)] job_x (inl fresh) [(job_y, inl fresh)]
              _ _ _ Hbefore Hthrow) as (Hall & _).
  split; [exact Hall|reflexivity].
Defined.

(** One job, one run recorded. *)
Lemma totalExecutions_is_sum_of_totalRuns_witness :
  reachable 100 manager_x_ran ∧
  (totalExecutions (getStats manager_x_ran)
   ≤ 100 * totalJobs (getStats manager_x_ran))%nat.
Proof.
  split; [apply reachable_manager_x_ran|].
  by destruct (totalExecutions_is_sum_of_totalRuns 100 manager_x_ran
                 reachable_manager_x_ran).
Defined.

(** One run of five milliseconds: the mean is five. *)
Lemma averageDuration_between_witness :
  ∃ info, getJob manager_x_ran "x" = Some info
    ∧ 5 ≤ JobInfo.averageDuration (JobInfo.stats info) ≤ 5.
Proof.
  eexists. split; [reflexivity|].
  apply (averageDuration_between manager_x_ran "x" _ 5 5).
  - reflexivity.
  - discriminate.
  - intros e He.
    change (history manager_x_ran "x")
      with [JobExecution.mk "x" 1000 (Some 1005) (Some 5) true None None]
      in He.
    apply list_elem_of_singleton in He as ->. simpl. lia.
Defined.

(** The record of the run from 1000 to 1005. *)
Lemma retained_records_timed_witness :
  timed (JobExecution.mk "x" 1000 (Some 1005) (Some 5) true None None).
Proof.
  assert (JobExecution.mk "x" 1000 (Some 1005) (Some 5) true None None
          ∈ history manager_x_ran "x") as He by apply list_elem_of_here.
  by destruct (retained_records_timed 100 manager_x_ran "x" _
                 reachable_manager_x_ran He) as (_ & Htimed & _).
Defined.

(** Two events logged into an empty log. *)
Lemma audit_log_keeps_last_witness :
  AuditLogger.log_all [] [logged AUTH_SUCCESS 1; logged JOB_TRIGGERED 2]
  = AuditLogger.logged_event
      <$> [logged AUTH_SUCCESS 1; logged JOB_TRIGGERED 2].
Proof.
  assert (length (@nil AuditLogger.AuditEvent) ≤ AuditLogger.maxEvents)%nat
    as Hlen by (simpl; lia).
  destruct (audit_log_keeps_last []
              [logged AUTH_SUCCESS 1; logged JOB_TRIGGERED 2] Hlen)
    as [Hlast _].
  exact Hlast.
Defined.

(** The first request of an address. *)
Lemma first_request_allowed_witness :
  (RateLimiter.check ∅ with_key 0).2 = true.
Proof.
  assert (∀ entry,
    (∅ : gmap string RateLimiter.RateLimitEntry)
      !! RateLimiter.getClientIP with_key = Some entry →
    RateLimiter.resetTime entry < 0) as Hnone
    by (intros entry Hentry; vm_compute in Hentry; discriminate).
  by destruct (first_request_allowed ∅ with_key 0 Hnone).
Defined.

(** Four requests in one minute under a limit of two. *)
Lemma requests_in_one_window_witness :
  (length (List.filter id
             (RateLimiter.check_all ∅ with_key [0; 10; 20; 30]%Z).2) ≤ 2)%nat.
Proof.
  assert (∀ entry,
    (∅ : gmap string RateLimiter.RateLimitEntry)
      !! RateLimiter.getClientIP with_key = Some entry →
    RateLimiter.resetTime entry < 0) as Hnone
    by (intros entry Hentry; vm_compute in Hentry; discriminate).
  assert (Forall (λ now, now ≤ 0 + RateLimiter.RATE_LIMIT_WINDOW)
            [10; 20; 30]) as Htimes
    by (repeat constructor; vm_compute; discriminate).
  by destruct (requests_in_one_window ∅ with_key 0 [10; 20; 30] Hnone Htimes)
    as (_ & _ & Hbudget).
Defined.

(** A sweep at 5, a request at 10. *)
Lemma cleanup_unseen_witness :
  (RateLimiter.check
     (RateLimiter.cleanup (RateLimiter.check ∅ with_key 0).1 5) with_key 10).2
  = (RateLimiter.check (RateLimiter.check ∅ with_key 0).1 with_key 10).2.
Proof.
  assert (5 ≤ 10) as Hle by lia.
  by destruct (cleanup_unseen (RateLimiter.check ∅ with_key 0).1 with_key
                 5 10 Hle).
Defined.

(** The configured API key passes. *)
Lemma bearer_authentication_witness :
  Request.headers with_key !! "authorization" = Some ("Bearer " +:+ "k3y") ∧
  (requireAuth [] with_key 0).2 = None.
Proof.
  assert (Request.headers with_key !! "authorization"
          = Some ("Bearer " +:+ "k3y")) as Hheader by reflexivity.
  split; [done|].
  apply (bearer_authentication [] with_key 0 "k3y" Hheader).
  split; [discriminate|reflexivity].
Defined.

(** The configured user name and password pass. *)
Lemma basic_authentication_witness :
  (requireAuth [] with_password 0).2 = None.
Proof.
  assert (Request.headers with_password !! "authorization"
          = Some ("Basic " +:+ "YWRtaW46Y29ycmVjdC1ob3JzZQ==")) as Hheader
    by reflexivity.
  destruct (basic_authentication [] with_password 0 _ Hheader)
    as (_ & _ & Hpass).
  by apply Hpass.
Defined.

(** A wrong key: the chain ends at [requireAuth] with the 401 response. *)
Lemma applySecurityMiddleware_first_witness :
  (applySecurityMiddleware no_security
     (protected (request "Bearer wrong") (readings 0))).2
  = Some createUnauthorizedResponse.
Proof.
  set (req := request "Bearer wrong").
  set (chain := protected req (readings 0)).
  assert (applySecurityMiddleware no_security (take 2 chain)
          = ((applySecurityMiddleware no_security (take 2 chain)).1, None))
    as Hbefore by reflexivity.
  assert (on_events (λ events, requireAuth events req 0)
            (applySecurityMiddleware no_security (take 2 chain)).1
          = ((on_events (λ events, requireAuth events req 0)
                (applySecurityMiddleware no_security (take 2 chain)).1).1,
             Some createUnauthorizedResponse)) as Hrefused by reflexivity.
  exact (f_equal snd
           (applySecurityMiddleware_first no_security (take 2 chain) []
              _ _ _ _ Hbefore Hrefused)).
Defined.

(** An error with a secret in its message. *)
Lemma createErrorResponse_hides_witness :
  createErrorResponse (OtherError "connect failed: password=hunter2") false
  = createErrorResponse (NotAnError "") false.
Proof.
  assert (∀ message,
    OtherError "connect failed: password=hunter2" ≠ ValidationError message)
    as Hother by discriminate.
  rewrite (createErrorResponse_hides _ false Hother (or_introl eq_refl)).
  reflexivity.
Defined.

(** Job x triggered with a handler that throws at once: the failure is in
    its history when [trigger] returns. *)
Lemma controls_keep_records_witness :
  history (trigger (manager_x 100) "x" (ThrewAtOnce "boom" 1000 1001)).1 "x"
  = [JobExecution.mk "x" 1000 (Some 1001) (Some 1) false (Some "boom") None].
Proof.
  destruct (controls_keep_records (manager_x 100) "x" "x")
    as (_ & _ & _ & _ & _ & _ & Hthrew).
  etrans; [by eapply Hthrew|reflexivity].
Defined.
